(** * A shallow embedding of the cosmac CHIP-8 decode/execute core

    Sources: [src/src/instruction.rs] (the library decoder),
    [src/src/chip.rs] (the executor), [src/src/components/register.rs]
    and [src/src/main.rs] (the earlier single-file snapshot, whose decoder
    returns [Unknown]).

    Conventions of the embedding:
    - [u8] and [u16] values are [Z]; [usize] register indices are [nat]
      (the decoder's [x as usize] is [Z.to_nat]);
    - fallible code returns [option]: [None] is a Rust panic, which covers
      [unimplemented!()], an out-of-bounds array index and an arithmetic
      overflow of [+] / [+=] (the overflow check of the default debug
      profile used by [cargo run] and [cargo test]);
    - the [println!] tracing and the [bitwise!] macro only print, so they
      are left out;
    - [rand::thread_rng().gen::<u8>()] is the argument [random] of
      [execute]. *)

From Stdlib Require Import ZArith List Lia Bool.
Import ListNotations.
Open Scope Z_scope.

(** ** The option monad standing for "may panic" *)

Notation "'let*' x ':=' m 'in' k" :=
  (match m with Some x => k | None => None end)
  (at level 200, x name, m at level 100, k at level 200).

(** ** Instructions ([src/src/instruction.rs]) *)

Inductive Instruction : Type :=
| Sys (addr : Z)
| Cls
| Ret
| Jp (addr : Z)
| Call (addr : Z)
| SeByte (vx : nat) (value : Z)
| SneByte (vx : nat) (value : Z)
| Se (vx vy : nat)
| LdByte (vx : nat) (value : Z)
| AddByte (vx : nat) (value : Z)
| Ld (vx vy : nat)
| Or (vx vy : nat)
| And (vx vy : nat)
| Xor (vx vy : nat)
| Add (vx vy : nat)
| Sub (vx vy : nat)
| Shr (vx : nat)
| Subn (vx vy : nat)
| Shl (vx : nat)
| Sne (vx vy : nat)
| Ldi (value : Z)
| JpV0 (addr : Z)
| Rnd (vx : nat) (mask : Z)
| LdVxDelay (vx : nat)
| LdDelayVx (vx : nat).

(** [(op >> 12 & 15, (op >> 8) & 15, (op >> 4) & 15, op & 15)] *)
Definition nibbles (op : Z) : Z * Z * Z * Z :=
  (Z.land (Z.shiftr op 12) 15, Z.land (Z.shiftr op 8) 15,
   Z.land (Z.shiftr op 4) 15, Z.land op 15).

(** [Instruction::parse]; the catch-all arm is [unimplemented!()], a
    panic, hence [None]. *)
Definition parse (op : Z) : option Instruction :=
  match nibbles op with
  | (6, x, a, b) => Some (LdByte (Z.to_nat x) (Z.land (Z.shiftl a 4 + b) 255))
  | (8, x, y, 0) => Some (Ld (Z.to_nat x) (Z.to_nat y))
  | (8, x, y, 1) => Some (Or (Z.to_nat x) (Z.to_nat y))
  | (8, x, y, 2) => Some (And (Z.to_nat x) (Z.to_nat y))
  | (8, x, y, 3) => Some (Xor (Z.to_nat x) (Z.to_nat y))
  | (8, x, y, 4) => Some (Add (Z.to_nat x) (Z.to_nat y))
  | (8, x, y, 5) => Some (Sub (Z.to_nat x) (Z.to_nat y))
  | (8, x, _, 6) => Some (Shr (Z.to_nat x))
  | (8, x, y, 7) => Some (Subn (Z.to_nat x) (Z.to_nat y))
  | (8, x, _, 14) => Some (Shl (Z.to_nat x))
  | _ => None
  end.

(** The decoder of the [src/src/main.rs] snapshot: its own, smaller
    [Instruction] enum with an explicit [Unknown] variant. *)
Module MainRs.

Inductive Instruction : Type :=
| LdByte (vx : nat) (value : Z)
| AddByte (vx : nat) (value : Z)
| Ld (vx vy : nat)
| Or (vx vy : nat)
| And (vx vy : nat)
| Xor (vx vy : nat)
| Add (vx vy : nat)
| Sub (vx vy : nat)
| Shr (vx : nat)
| Subn (vx vy : nat)
| Shl (vx : nat)
| Rnd (vx : nat) (mask : Z)
| Unknown.

Definition parse (op : Z) : Instruction :=
  match nibbles op with
  | (6, x, a, b) => LdByte (Z.to_nat x) (Z.land (Z.shiftl a 4 + b) 255)
  | (8, x, y, 0) => Ld (Z.to_nat x) (Z.to_nat y)
  | (8, x, y, 1) => Or (Z.to_nat x) (Z.to_nat y)
  | (8, x, y, 2) => And (Z.to_nat x) (Z.to_nat y)
  | (8, x, y, 3) => Xor (Z.to_nat x) (Z.to_nat y)
  | (8, x, y, 4) => Add (Z.to_nat x) (Z.to_nat y)
  | (8, x, y, 5) => Sub (Z.to_nat x) (Z.to_nat y)
  | (8, x, _, 6) => Shr (Z.to_nat x)
  | (8, x, y, 7) => Subn (Z.to_nat x) (Z.to_nat y)
  | (8, x, _, 14) => Shl (Z.to_nat x)
  | _ => Unknown
  end.

End MainRs.

(** ** Machine state ([src/src/components], [src/src/chip.rs]) *)

(** [Memory { values: [u8; 4096] }]; [execute] never touches it. *)
Definition Memory := list Z.

(** [Register { delay, i, sound, values: [u8; 16] }] *)
Record Register : Type := mkRegister {
  delay : Z;
  i : Z;
  sound : Z;
  values : list Z
}.

(** [AddressableStorage::get]: [self.values[key]], which panics out of
    bounds. *)
Definition reg_get (r : Register) (key : nat) : option Z :=
  nth_error (values r) key.

Fixpoint list_set (l : list Z) (key : nat) (v : Z) : option (list Z) :=
  match l, key with
  | [], _ => None
  | _ :: t, O => Some (v :: t)
  | h :: t, S k => let* t' := list_set t k v in Some (h :: t')
  end.

(** [AddressableStorage::set]: [self.values[key] = value], which panics
    out of bounds. *)
Definition reg_set (r : Register) (key : nat) (v : Z) : option Register :=
  let* vs := list_set (values r) key v in
  Some (mkRegister (delay r) (i r) (sound r) vs).

Record Chip : Type := mkChip {
  memory : Memory;
  register : Register;
  program_counter : Z;
  stack : list Z
}.

Definition with_register (c : Chip) (r : Register) : Chip :=
  mkChip (memory c) r (program_counter c) (stack c).
Definition with_pc (c : Chip) (pc : Z) : Chip :=
  mkChip (memory c) (register c) pc (stack c).
Definition with_stack (c : Chip) (st : list Z) : Chip :=
  mkChip (memory c) (register c) (program_counter c) st.

(** [Vec::pop]: removes and returns the last element. *)
Definition vec_pop (st : list Z) : option (Z * list Z) :=
  match st with
  | [] => None
  | _ => Some (last st 0, removelast st)
  end.

(** [u16] addition [a + b], which panics on overflow. *)
Definition u16_add (a b : Z) : option Z :=
  if a + b <? 65536 then Some (a + b) else None.

Definition b2z (b : bool) : Z := if b then 1 else 0.

(** [self.register.set(vx, value)] on the chip. *)
Definition chip_set (c : Chip) (vx : nat) (v : Z) : option Chip :=
  let* r := reg_set (register c) vx v in Some (with_register c r).

(** [self.program_counter += 2] *)
Definition skip (c : Chip) : option Chip :=
  let* pc := u16_add (program_counter c) 2 in Some (with_pc c pc).

(** [Chip::execute]. *)
Definition execute (random : Z) (c : Chip) (ins : Instruction) : option Chip :=
  let reg := register c in
  match ins with
  | Sys _ => None
  | Cls => None
  | Ret =>
      match vec_pop (stack c) with
      | Some (addr, st) => Some (with_pc (with_stack c st) (Z.land addr 4095))
      | None => Some c
      end
  | Jp addr => Some (with_pc c addr)
  | Call addr =>
      Some (with_pc (with_stack c (stack c ++ [program_counter c]))
                    (Z.land addr 4095))
  | SeByte vx value =>
      let* a := reg_get reg vx in
      if a =? value then skip c else Some c
  | SneByte vx value =>
      let* a := reg_get reg vx in
      if negb (a =? value) then skip c else Some c
  | Se vx vy =>
      let* a := reg_get reg vx in
      let* b := reg_get reg vy in
      if a =? b then skip c else Some c
  | Sne vx vy =>
      let* a := reg_get reg vx in
      let* b := reg_get reg vy in
      if negb (a =? b) then skip c else Some c
  | LdByte vx value => chip_set c vx value
  | AddByte vx value =>
      let* value_x := reg_get reg vx in
      let sum := Z.land (value_x + value) 255 in
      chip_set c vx sum
  | Ld vx vy =>
      let* value := reg_get reg vy in
      chip_set c vx value
  | Or vx vy =>
      let* value_x := reg_get reg vx in
      let* value_y := reg_get reg vy in
      chip_set c vx (Z.lor value_x value_y)
  | And vx vy =>
      let* value_x := reg_get reg vx in
      let* value_y := reg_get reg vy in
      chip_set c vx (Z.land value_x value_y)
  | Xor vx vy =>
      let* value_x := reg_get reg vx in
      let* value_y := reg_get reg vy in
      chip_set c vx (Z.lxor value_x value_y)
  | Add vx vy =>
      let* value_x := reg_get reg vx in
      let* value_y := reg_get reg vy in
      let sum := value_x + value_y in
      let overflow := b2z (sum >? 255) in
      let* c1 := chip_set c 15 overflow in
      chip_set c1 vx (Z.land sum 255)
  | Sub vx vy =>
      let* value_x := reg_get reg vx in
      let* value_y := reg_get reg vy in
      let no_borrow := b2z (value_x >? value_y) in
      let* c1 := chip_set c 15 no_borrow in
      chip_set c1 vx (Z.land (value_x - value_y) 255)
  | Shr vx =>
      let* value_x := reg_get reg vx in
      let least_sig_bit := Z.land value_x 1 in
      let* c1 := chip_set c 15 least_sig_bit in
      chip_set c1 vx (Z.shiftr value_x 1)
  | Subn vx vy =>
      let* value_x := reg_get reg vx in
      let* value_y := reg_get reg vy in
      let no_borrow := b2z (value_y >? value_x) in
      let* c1 := chip_set c 15 no_borrow in
      chip_set c1 vx (Z.land (value_y - value_x) 255)
  | Shl vx =>
      let* value_x := reg_get reg vx in
      let most_sig_bit := Z.shiftr (Z.land value_x 128) 7 in
      let* c1 := chip_set c 15 most_sig_bit in
      chip_set c1 vx (Z.land (Z.shiftl value_x 1) 255)
  | Ldi value =>
      Some (with_register c (mkRegister (delay reg) value (sound reg) (values reg)))
  | JpV0 addr =>
      let* v0 := reg_get reg 0 in
      let* pc := u16_add v0 addr in
      Some (with_pc c pc)
  | Rnd vx mask => chip_set c vx (Z.land random mask)
  | LdVxDelay vx =>
      let delay := delay reg in
      chip_set c vx delay
  | LdDelayVx vx =>
      let* v := reg_get reg vx in
      Some (with_register c (mkRegister v (i reg) (sound reg) (values reg)))
  end.

(** ** Facts about the decoder *)

Lemma nibbles_spec (op : Z) :
  0 <= op < 65536 ->
  nibbles op = (op / 4096, op / 256 mod 16, op / 16 mod 16, op mod 16).
Proof.
  intros Hop. unfold nibbles.
  rewrite !Z.shiftr_div_pow2 by lia.
  change 15 with (Z.ones 4). rewrite !Z.land_ones by lia.
  change (2 ^ 12) with 4096. change (2 ^ 8) with 256.
  change (2 ^ 4) with 16. change (2 ^ 4) with 16.
  f_equal. f_equal. f_equal.
  apply Z.mod_small. split.
  - apply Z.div_pos; lia.
  - apply Z.div_lt_upper_bound; lia.
Qed.

Lemma nibbles_compose (a b c d : Z) :
  0 <= a < 16 -> 0 <= b < 16 -> 0 <= c < 16 -> 0 <= d < 16 ->
  nibbles (a * 4096 + b * 256 + c * 16 + d) = (a, b, c, d).
Proof.
  intros Ha Hb Hc Hd.
  rewrite nibbles_spec by lia.
  set (op := a * 4096 + b * 256 + c * 16 + d).
  rewrite <- (Z.div_unique op 4096 a (b * 256 + c * 16 + d)) by (unfold op; lia).
  rewrite <- (Z.div_unique op 256 (a * 16 + b) (c * 16 + d)) by (unfold op; lia).
  rewrite <- (Z.div_unique op 16 (a * 256 + b * 16 + c) d) by (unfold op; lia).
  rewrite <- (Z.mod_unique (a * 16 + b) 16 a b) by lia.
  rewrite <- (Z.mod_unique (a * 256 + b * 16 + c) 16 (a * 16 + b) c) by lia.
  rewrite <- (Z.mod_unique op 16 (a * 256 + b * 16 + c) d) by (unfold op; lia).
  reflexivity.
Qed.

(** The low byte rebuilt by the [6xkk] arm is [kk]. *)
Lemma low_byte_rebuild (kk : Z) :
  0 <= kk < 256 ->
  Z.land (Z.shiftl (kk / 16) 4 + kk mod 16) 255 = kk.
Proof.
  intros Hkk. rewrite Z.shiftl_mul_pow2 by lia.
  change 255 with (Z.ones 8). rewrite Z.land_ones by lia.
  change (2 ^ 4) with 16. change (2 ^ 8) with 256.
  rewrite Z.mul_comm, <- Z.div_mod by lia.
  apply Z.mod_small; lia.
Qed.

(** Opcode built from a high nibble [h], register indices [x], [y] and
    a low nibble [n]. *)
Definition opcode (h x y n : Z) : Z := h * 4096 + x * 256 + y * 16 + n.

(** Opcode built from a high nibble [h], [x] and the low byte [kk]. *)
Definition opcode_kk (h x kk : Z) : Z := h * 4096 + x * 256 + kk.

Lemma opcode_kk_nibbles (h x kk : Z) :
  0 <= h < 16 -> 0 <= x < 16 -> 0 <= kk < 256 ->
  nibbles (opcode_kk h x kk) = (h, x, kk / 16, kk mod 16).
Proof.
  intros Hh Hx Hkk. unfold opcode_kk.
  rewrite (Z.div_mod kk 16) at 1 by lia.
  replace (h * 4096 + x * 256 + (16 * (kk / 16) + kk mod 16))
    with (h * 4096 + x * 256 + kk / 16 * 16 + kk mod 16) by lia.
  apply nibbles_compose; try lia.
  - split; [apply Z.div_pos; lia | apply Z.div_lt_upper_bound; lia].
  - apply Z.mod_pos_bound; lia.
Qed.

(** Case split on a variable known to be a nibble. *)
Ltac case_nibble v :=
  let H := fresh "Hn" in
  assert (H : v = 0 \/ v = 1 \/ v = 2 \/ v = 3 \/ v = 4 \/ v = 5 \/ v = 6 \/
              v = 7 \/ v = 8 \/ v = 9 \/ v = 10 \/ v = 11 \/ v = 12 \/
              v = 13 \/ v = 14 \/ v = 15) by lia;
  destruct H as [-> | [-> | [-> | [-> | [-> | [-> | [-> | [-> | [-> | [-> | [-> | [-> | [-> | [-> | [-> | ->]]]]]]]]]]]]]]].

Lemma nibble_bounds (op : Z) :
  0 <= op < 65536 -> 0 <= op / 4096 < 16 /\ 0 <= op mod 16 < 16.
Proof.
  intros Hop. split.
  - split; [apply Z.div_pos; lia | apply Z.div_lt_upper_bound; lia].
  - apply Z.mod_pos_bound; lia.
Qed.

(** Decoding of the [8xyn] opcodes, shared by both decoders. *)
Lemma parse_8xyn (x y n : Z) :
  0 <= x < 16 -> 0 <= y < 16 -> 0 <= n < 16 ->
  nibbles (opcode 8 x y n) = (8, x, y, n).
Proof. intros; unfold opcode; apply nibbles_compose; lia. Qed.

(** ** C1: the decoder *)

(** C1 (counterexample): the opcode [0x7005] (the table's [7xkk] row,
    [AddByte(0, 5)]) is not decoded: the library decoder panics through
    [unimplemented!()] and the [main.rs] decoder returns [Unknown]. *)
Lemma parse_7xkk_not_decoded :
  parse 0x7005 = None /\ MainRs.parse 0x7005 = MainRs.Unknown.
Proof. split; reflexivity. Qed.

(** C1 (amended): both decoders decode exactly the [6xkk] row and the
    [8xy0]..[8xy7], [8xyE] rows, with [x] = bits 8-11, [y] = bits 4-7 and
    [kk] = the low byte; every other 16-bit opcode (high nibble other than
    6 and 8, or [8xyn] with [n] in 8..D or F) makes the library decoder
    panic ([None]) and the [main.rs] decoder return [Unknown]. *)
Theorem parse_decode_table :
  (forall x kk, 0 <= x < 16 -> 0 <= kk < 256 ->
     parse (opcode_kk 6 x kk) = Some (LdByte (Z.to_nat x) kk) /\
     MainRs.parse (opcode_kk 6 x kk) = MainRs.LdByte (Z.to_nat x) kk) /\
  (forall x y, 0 <= x < 16 -> 0 <= y < 16 ->
     let vx := Z.to_nat x in let vy := Z.to_nat y in
     parse (opcode 8 x y 0) = Some (Ld vx vy) /\
     parse (opcode 8 x y 1) = Some (Or vx vy) /\
     parse (opcode 8 x y 2) = Some (And vx vy) /\
     parse (opcode 8 x y 3) = Some (Xor vx vy) /\
     parse (opcode 8 x y 4) = Some (Add vx vy) /\
     parse (opcode 8 x y 5) = Some (Sub vx vy) /\
     parse (opcode 8 x y 6) = Some (Shr vx) /\
     parse (opcode 8 x y 7) = Some (Subn vx vy) /\
     parse (opcode 8 x y 14) = Some (Shl vx) /\
     MainRs.parse (opcode 8 x y 0) = MainRs.Ld vx vy /\
     MainRs.parse (opcode 8 x y 1) = MainRs.Or vx vy /\
     MainRs.parse (opcode 8 x y 2) = MainRs.And vx vy /\
     MainRs.parse (opcode 8 x y 3) = MainRs.Xor vx vy /\
     MainRs.parse (opcode 8 x y 4) = MainRs.Add vx vy /\
     MainRs.parse (opcode 8 x y 5) = MainRs.Sub vx vy /\
     MainRs.parse (opcode 8 x y 6) = MainRs.Shr vx /\
     MainRs.parse (opcode 8 x y 7) = MainRs.Subn vx vy /\
     MainRs.parse (opcode 8 x y 14) = MainRs.Shl vx) /\
  (forall op, 0 <= op < 65536 ->
     (op / 4096 <> 6 /\ op / 4096 <> 8) \/
     (op / 4096 = 8 /\ (8 <= op mod 16 <= 13 \/ op mod 16 = 15)) ->
     parse op = None /\ MainRs.parse op = MainRs.Unknown).
Proof.
  split; [| split].
  - intros x kk Hx Hkk. unfold parse, MainRs.parse.
    rewrite opcode_kk_nibbles by lia. rewrite low_byte_rebuild by lia.
    split; reflexivity.
  - intros x y Hx Hy vx vy. unfold parse, MainRs.parse.
    rewrite !parse_8xyn by lia.
    repeat split.
  - intros op Hop Hcase. unfold parse, MainRs.parse.
    rewrite nibbles_spec by lia.
    destruct (nibble_bounds op Hop) as [Ha Hd].
    remember (op / 4096) as a eqn:Ea. remember (op mod 16) as d eqn:Ed.
    clear Ea Ed.
    case_nibble a; try (split; reflexivity); try (exfalso; lia).
    all: case_nibble d; try (split; reflexivity); exfalso; lia.
Qed.

(** Witness: the three parts at [6A3C], [8235] and [0x7005]. *)
Lemma parse_decode_table_witness :
  parse 0x6A3C = Some (LdByte 10 60) /\ parse 0x8235 = Some (Sub 2 3) /\
  parse 0x7005 = None.
Proof.
  destruct parse_decode_table as [H6 [H8 Hother]]. split; [| split].
  - apply (H6 10 60); lia.
  - apply (H8 2 3); lia.
  - apply (Hother 0x7005); [lia | left; vm_compute; split; discriminate].
Defined.

(** ** Facts about the register file *)

(** The list that [list_set] builds when the index is in bounds. *)
Fixpoint upd (l : list Z) (k : nat) (v : Z) : list Z :=
  match l, k with
  | [], _ => []
  | _ :: t, O => v :: t
  | h :: t, S k => h :: upd t k v
  end.

Lemma list_set_upd (l : list Z) (k : nat) (v : Z) :
  (k < length l)%nat -> list_set l k v = Some (upd l k v).
Proof.
  revert k; induction l as [| h t IH]; intros [| k] Hk; simpl in *;
    try lia; try reflexivity.
  rewrite IH by lia. reflexivity.
Qed.

Lemma upd_length (l : list Z) (k : nat) (v : Z) : length (upd l k v) = length l.
Proof.
  revert k; induction l as [| h t IH]; intros [| k]; simpl; auto.
Qed.

Lemma nth_upd_eq (l : list Z) (k : nat) (v : Z) :
  (k < length l)%nat -> nth k (upd l k v) 0 = v.
Proof.
  revert k; induction l as [| h t IH]; intros [| k] Hk; simpl in *;
    try lia; auto with arith.
Qed.

Lemma nth_upd_neq (l : list Z) (k j : nat) (v : Z) :
  j <> k -> nth j (upd l k v) 0 = nth j l 0.
Proof.
  revert k j; induction l as [| h t IH]; intros [| k] [| j] Hjk; simpl;
    auto; congruence.
Qed.

(** Register [k] of a chip, as [self.register.get(k)] reads it. *)
Definition reg_nth (c : Chip) (k : nat) : Z := nth k (values (register c)) 0.

(** The register write [self.register.set(k, v)] when [k] is in bounds. *)
Definition set_reg (c : Chip) (k : nat) (v : Z) : Chip :=
  let r := register c in
  with_register c (mkRegister (delay r) (i r) (sound r) (upd (values r) k v)).

(** A chip as Rust builds it: sixteen registers holding [u8] values and a
    [u16] program counter. *)
Definition chip_wf (c : Chip) : Prop :=
  length (values (register c)) = 16%nat /\
  Forall (fun v => 0 <= v < 256) (values (register c)) /\
  0 <= program_counter c < 65536.

Lemma reg_get_nth (c : Chip) (k : nat) :
  (k < length (values (register c)))%nat ->
  reg_get (register c) k = Some (reg_nth c k).
Proof.
  intros Hk. unfold reg_get, reg_nth. apply nth_error_nth'. exact Hk.
Qed.

Lemma chip_set_upd (c : Chip) (k : nat) (v : Z) :
  (k < length (values (register c)))%nat -> chip_set c k v = Some (set_reg c k v).
Proof.
  intros Hk. unfold chip_set, reg_set. rewrite list_set_upd by exact Hk.
  reflexivity.
Qed.

Lemma set_reg_length (c : Chip) (k : nat) (v : Z) :
  length (values (register (set_reg c k v))) = length (values (register c)).
Proof. apply upd_length. Qed.

Lemma reg_nth_set_eq (c : Chip) (k : nat) (v : Z) :
  (k < length (values (register c)))%nat -> reg_nth (set_reg c k v) k = v.
Proof. apply nth_upd_eq. Qed.

Lemma reg_nth_set_neq (c : Chip) (k j : nat) (v : Z) :
  j <> k -> reg_nth (set_reg c k v) j = reg_nth c j.
Proof. apply nth_upd_neq. Qed.

Lemma chip_wf_byte (c : Chip) (k : nat) :
  chip_wf c -> 0 <= reg_nth c k < 256.
Proof.
  intros [_ [Hall _]]. unfold reg_nth.
  destruct (Nat.lt_ge_cases k (length (values (register c)))) as [Hk | Hk].
  - rewrite Forall_forall in Hall. apply Hall, nth_In, Hk.
  - rewrite nth_overflow by exact Hk. lia.
Qed.

(** Rewrite the register reads and writes of [execute] away. *)
Ltac reg_length :=
  repeat rewrite set_reg_length; simpl; lia.

Ltac exec_regs :=
  repeat first
    [ rewrite reg_get_nth by reg_length
    | rewrite chip_set_upd by reg_length ].

(** ** C2: which instructions complete *)

(** A well-formed instruction, as the decoder's field extraction builds
    it: register indices are nibbles, addresses have 12 bits, bytes have
    8 bits and [Ldi]'s value 16 bits. *)
Definition instr_wf (ins : Instruction) : Prop :=
  match ins with
  | Sys addr | Jp addr | Call addr | JpV0 addr => 0 <= addr < 4096
  | Ldi value => 0 <= value < 65536
  | SeByte vx value | SneByte vx value | LdByte vx value | AddByte vx value
  | Rnd vx value => (vx < 16)%nat /\ 0 <= value < 256
  | Se vx vy | Sne vx vy | Ld vx vy | Or vx vy | And vx vy | Xor vx vy
  | Add vx vy | Sub vx vy | Subn vx vy => (vx < 16)%nat /\ (vy < 16)%nat
  | Shr vx | Shl vx | LdVxDelay vx | LdDelayVx vx => (vx < 16)%nat
  | Cls | Ret => True
  end.

(** The four conditional skips, which add 2 to the program counter. *)
Definition is_skip (ins : Instruction) : bool :=
  match ins with
  | SeByte _ _ | SneByte _ _ | Se _ _ | Sne _ _ => true
  | _ => false
  end.

Lemma skip_some (c : Chip) :
  0 <= program_counter c <= 65533 ->
  skip c = Some (with_pc c (program_counter c + 2)).
Proof.
  intros Hpc. unfold skip, u16_add.
  destruct (Z.ltb_spec (program_counter c + 2) 65536); [reflexivity | lia].
Qed.

(** C2 (amended): on a well-formed chip and a well-formed instruction,
    [execute] panics on [Sys] and [Cls] (their arms are
    [unimplemented!()]) and completes on every other instruction, the
    conditional skips whenever the program counter is at most [0xFFFD]. *)
Theorem execute_completes (random : Z) (c : Chip) (ins : Instruction) :
  chip_wf c -> instr_wf ins ->
  (is_skip ins = true -> program_counter c <= 65533) ->
  match ins with
  | Sys _ | Cls => execute random c ins = None
  | _ => exists c', execute random c ins = Some c'
  end.
Proof.
  intros Hwf Hins Hskip.
  pose proof (chip_wf_byte c 0 Hwf) as Hv0.
  destruct Hwf as [Hlen [_ Hpc]].
  destruct ins; simpl in Hins, Hskip; unfold execute;
    try reflexivity;
    repeat match type of Hins with _ /\ _ => destruct Hins as [? Hins] end;
    exec_regs;
    try (repeat destruct (_ =? _); simpl;
         try rewrite skip_some by (specialize (Hskip eq_refl); lia));
    eauto.
  - destruct (vec_pop (stack c)) as [[? ?] |]; eauto.
  - unfold u16_add. destruct (Z.ltb_spec (reg_nth c 0 + addr) 65536);
      [eauto | lia].
Qed.

(** Witness: [SeByte(0, 0)] on the zeroed chip at program counter 0. *)
Definition zero_chip : Chip :=
  mkChip (repeat 0 4096) (mkRegister 0 0 0 (repeat 0 16)) 0 [].

Lemma execute_completes_witness :
  exists c', execute 0 zero_chip (SeByte 0 0) = Some c'.
Proof.
  apply (execute_completes 0 zero_chip (SeByte 0 0)).
  - unfold chip_wf; simpl. repeat split; try lia.
    repeat constructor; lia.
  - simpl. split; lia.
  - simpl. intros _. lia.
Defined.

(** C2 (counterexample): [Cls] panics instead of returning. *)
Lemma execute_cls_panics : execute 0 zero_chip Cls = None.
Proof. reflexivity. Qed.

(** ** Register writes and the rest of the state *)

(** [c'] differs from [c] at most in the general-purpose registers. *)
Definition frame_regs (c c' : Chip) : Prop :=
  memory c' = memory c /\ program_counter c' = program_counter c /\
  stack c' = stack c /\ delay (register c') = delay (register c) /\
  i (register c') = i (register c) /\ sound (register c') = sound (register c) /\
  length (values (register c')) = length (values (register c)).

Lemma frame_regs_set (c : Chip) (k : nat) (v : Z) : frame_regs c (set_reg c k v).
Proof. unfold frame_regs; simpl. rewrite upd_length. repeat split. Qed.

(** The flag write [set(0xF, f)] followed by [set(x, v)], the shape of
    Add, Sub, Subn, Shr and Shl. *)
Lemma flag_then_write (c : Chip) (x : nat) (f v : Z) :
  length (values (register c)) = 16%nat -> (x < 16)%nat ->
  let c' := set_reg (set_reg c 15 f) x v in
  reg_nth c' x = v /\
  reg_nth c' 15 = (if Nat.eqb x 15 then v else f) /\
  (forall k, k <> x -> k <> 15%nat -> reg_nth c' k = reg_nth c k) /\
  frame_regs c c'.
Proof.
  intros Hlen Hx c'. subst c'. split; [| split; [| split]].
  - apply reg_nth_set_eq. rewrite set_reg_length. lia.
  - destruct (Nat.eqb_spec x 15) as [-> | Hne].
    + apply reg_nth_set_eq. rewrite set_reg_length. lia.
    + rewrite reg_nth_set_neq by congruence.
      apply reg_nth_set_eq. lia.
  - intros k Hkx Hk15. rewrite !reg_nth_set_neq by assumption. reflexivity.
  - pose proof (frame_regs_set c 15 f) as H1.
    pose proof (frame_regs_set (set_reg c 15 f) x v) as H2.
    unfold frame_regs in *. intuition congruence.
Qed.

Lemma land_255_mod (z : Z) : Z.land z 255 = z mod 256.
Proof. change 255 with (Z.ones 8). rewrite Z.land_ones by lia. reflexivity. Qed.

(** The chip with [V0 = a], [V1 = b], [VF = f] and everything else zero. *)
Definition chip_with (a b f : Z) : Chip :=
  mkChip (repeat 0 4096)
    (mkRegister 0 0 0 ([a; b] ++ repeat 0 13 ++ [f])) 0 [].

(** ** C3: Add *)

(** C3 (counterexample): [Add(0xF, 0)] with [VF = 255], [V0 = 1]: the
    sum is 256 > 255, yet VF ends as 0, since the write of [Vx] comes after
    the flag write and overwrites it. *)
Lemma execute_add_vf_overwritten :
  option_map (fun c => reg_nth c 15) (execute 0 (chip_with 1 0 255) (Add 15 0))
  = Some 0.
Proof. reflexivity. Qed.

(** C3 (amended): [Add(x, y)] reads [Vx] and [Vy] first, computes their
    sum in a wider width, writes VF = (sum > 255) and then
    [Vx = sum mod 256]. So [Vx] ends as [sum mod 256]; VF ends as the
    carry when [x <> 0xF] and as [sum mod 256] when [x = 0xF]; no other
    register and no other part of the state changes. *)
Theorem execute_add (random : Z) (c : Chip) (x y : nat) :
  chip_wf c -> (x < 16)%nat -> (y < 16)%nat ->
  let sum := reg_nth c x + reg_nth c y in
  let carry := if sum >? 255 then 1 else 0 in
  exists c', execute random c (Add x y) = Some c' /\
    reg_nth c' x = sum mod 256 /\
    reg_nth c' 15 = (if Nat.eqb x 15 then sum mod 256 else carry) /\
    (forall k, k <> x -> k <> 15%nat -> reg_nth c' k = reg_nth c k) /\
    frame_regs c c'.
Proof.
  intros Hwf Hx Hy sum carry. destruct Hwf as [Hlen _].
  unfold execute. exec_regs.
  eexists; split; [reflexivity |].
  rewrite land_255_mod. apply flag_then_write; assumption.
Qed.

Lemma execute_add_witness :
  exists c', execute 0 (chip_with 255 1 0) (Add 0 1) = Some c' /\
    reg_nth c' 0 = (255 + 1) mod 256 /\
    reg_nth c' 15 = (if Nat.eqb 0 15 then (255 + 1) mod 256 else 1) /\
    (forall k, k <> 0%nat -> k <> 15%nat ->
       reg_nth c' k = reg_nth (chip_with 255 1 0) k) /\
    frame_regs (chip_with 255 1 0) c'.
Proof.
  apply (execute_add 0 (chip_with 255 1 0) 0 1); try lia.
  unfold chip_wf; simpl. repeat split; try lia. repeat constructor; lia.
Defined.

(** ** C4: Sub and Subn *)

(** The [i16] difference masked with [& 255]: the wrap-around of a
    negative difference is [256 + d]. *)
Lemma land_255_diff (a b : Z) :
  0 <= a < 256 -> 0 <= b < 256 ->
  Z.land (a - b) 255 = (if a <? b then 256 + (a - b) else a - b).
Proof.
  intros Ha Hb. rewrite land_255_mod.
  destruct (Z.ltb_spec a b).
  - rewrite (Z.mod_unique (a - b) 256 (-1) (256 + (a - b))); lia.
  - apply Z.mod_small. lia.
Qed.

(** C4 (counterexample): [Sub(0xF, 0)] with [VF = 5], [V0 = 3]: the flag
    is 1, but VF ends as the difference 2. *)
Lemma execute_sub_vf_overwritten :
  option_map (fun c => reg_nth c 15) (execute 0 (chip_with 3 0 5) (Sub 15 0))
  = Some 2.
Proof. reflexivity. Qed.

(** C4 (amended): [Sub(x, y)] reads [Vx] and [Vy] first, writes
    VF = (Vx > Vy) and then [Vx = (Vx - Vy) mod 256], which is
    [256 + (Vx - Vy)] when the difference is negative; [Subn(x, y)] is the
    mirror with VF = (Vy > Vx) and [Vx = (Vy - Vx) mod 256]. VF ends as
    the flag when [x <> 0xF] and as the difference when [x = 0xF]; no
    other register and no other part of the state changes. *)
Theorem execute_sub_subn (random : Z) (c : Chip) (x y : nat) :
  chip_wf c -> (x < 16)%nat -> (y < 16)%nat ->
  let vx := reg_nth c x in
  let vy := reg_nth c y in
  (let d := if vx <? vy then 256 + (vx - vy) else vx - vy in
   let flag := if vx >? vy then 1 else 0 in
   exists c', execute random c (Sub x y) = Some c' /\
     reg_nth c' x = d /\
     reg_nth c' 15 = (if Nat.eqb x 15 then d else flag) /\
     (forall k, k <> x -> k <> 15%nat -> reg_nth c' k = reg_nth c k) /\
     frame_regs c c') /\
  (let d := if vy <? vx then 256 + (vy - vx) else vy - vx in
   let flag := if vy >? vx then 1 else 0 in
   exists c', execute random c (Subn x y) = Some c' /\
     reg_nth c' x = d /\
     reg_nth c' 15 = (if Nat.eqb x 15 then d else flag) /\
     (forall k, k <> x -> k <> 15%nat -> reg_nth c' k = reg_nth c k) /\
     frame_regs c c').
Proof.
  intros Hwf Hx Hy vx vy.
  pose proof (chip_wf_byte c x Hwf) as Bx.
  pose proof (chip_wf_byte c y Hwf) as By.
  destruct Hwf as [Hlen _].
  split; unfold execute; exec_regs;
    (eexists; split; [reflexivity |]);
    rewrite land_255_diff by assumption;
    apply flag_then_write; assumption.
Qed.

Lemma execute_sub_subn_witness :
  (exists c', execute 0 (chip_with 25 100 0) (Sub 0 1) = Some c' /\
     reg_nth c' 0 = (if 25 <? 100 then 256 + (25 - 100) else 25 - 100) /\
     reg_nth c' 15 = (if Nat.eqb 0 15 then (if 25 <? 100 then 256 + (25 - 100)
                       else 25 - 100) else if 25 >? 100 then 1 else 0) /\
     (forall k, k <> 0%nat -> k <> 15%nat ->
        reg_nth c' k = reg_nth (chip_with 25 100 0) k) /\
     frame_regs (chip_with 25 100 0) c') /\
  (exists c', execute 0 (chip_with 25 100 0) (Subn 0 1) = Some c' /\
     reg_nth c' 0 = (if 100 <? 25 then 256 + (100 - 25) else 100 - 25) /\
     reg_nth c' 15 = (if Nat.eqb 0 15 then (if 100 <? 25 then 256 + (100 - 25)
                       else 100 - 25) else if 100 >? 25 then 1 else 0) /\
     (forall k, k <> 0%nat -> k <> 15%nat ->
        reg_nth c' k = reg_nth (chip_with 25 100 0) k) /\
     frame_regs (chip_with 25 100 0) c').
Proof.
  apply (execute_sub_subn 0 (chip_with 25 100 0) 0 1); try lia.
  unfold chip_wf; simpl. repeat split; try lia. repeat constructor; lia.
Defined.

(** ** C5: Ret *)

Lemma vec_pop_app (st : list Z) (a : Z) : vec_pop (st ++ [a]) = Some (a, st).
Proof.
  unfold vec_pop. rewrite last_last, removelast_last. destruct st; reflexivity.
Qed.

(** C5: [Ret] on a stack whose top (last) entry is [a] removes that entry
    and sets the program counter to [a & 0xFFF]; on an empty stack it
    returns the chip unchanged. *)
Theorem execute_ret (random : Z) (c : Chip) :
  (forall st a, stack c = st ++ [a] ->
     execute random c Ret = Some (with_pc (with_stack c st) (Z.land a 4095))) /\
  (stack c = [] -> execute random c Ret = Some c).
Proof.
  split.
  - intros st a Hst. unfold execute. rewrite Hst, vec_pop_app. reflexivity.
  - intros Hst. unfold execute. rewrite Hst. reflexivity.
Qed.

Lemma execute_ret_witness :
  execute 0 (with_stack zero_chip [0x200; 0x1ABC]) Ret
    = Some (with_pc (with_stack (with_stack zero_chip [0x200; 0x1ABC]) [0x200])
                    (Z.land 0x1ABC 4095)) /\
  execute 0 zero_chip Ret = Some zero_chip.
Proof.
  split.
  - apply (proj1 (execute_ret 0 (with_stack zero_chip [0x200; 0x1ABC])) [0x200]).
    reflexivity.
  - apply (proj2 (execute_ret 0 zero_chip)). reflexivity.
Defined.

(** ** C6: Shr and Shl *)

Lemma execute_shr (random : Z) (c : Chip) (x : nat) :
  length (values (register c)) = 16%nat -> (x < 16)%nat ->
  execute random c (Shr x) =
    Some (set_reg (set_reg c 15 (Z.land (reg_nth c x) 1)) x
                  (Z.shiftr (reg_nth c x) 1)).
Proof. intros Hlen Hx. unfold execute. exec_regs. reflexivity. Qed.

Lemma execute_shl (random : Z) (c : Chip) (x : nat) :
  length (values (register c)) = 16%nat -> (x < 16)%nat ->
  execute random c (Shl x) =
    Some (set_reg (set_reg c 15 (Z.shiftr (Z.land (reg_nth c x) 128) 7)) x
                  (Z.land (Z.shiftl (reg_nth c x) 1) 255)).
Proof. intros Hlen Hx. unfold execute. exec_regs. reflexivity. Qed.

(** One shift on a register [x <> 0xF] holding [v]: the result [w] is in
    [x] and the flag [f] in VF. *)
Lemma shift_step (c c' : Chip) (x : nat) (f w : Z) :
  length (values (register c)) = 16%nat -> (x < 15)%nat ->
  c' = set_reg (set_reg c 15 f) x w ->
  length (values (register c')) = 16%nat /\ reg_nth c' x = w /\ reg_nth c' 15 = f.
Proof.
  intros Hlen Hx ->.
  destruct (flag_then_write c x f w Hlen ltac:(lia)) as [H1 [H2 _]].
  rewrite !set_reg_length. split; [exact Hlen | split; [exact H1 |]].
  rewrite H2. destruct (Nat.eqb_spec x 15); [lia | reflexivity].
Qed.

(** C6: for [x] in [0x0..0xE], [Vx = 5] gives [Vx = 2], [VF = 1] after
    [Shr(x)] and then [Vx = 4], [VF = 0] after [Shl(x)]; [Vx = 150]
    gives [Vx = 44], [VF = 1] after [Shl(x)] and then [Vx = 22], [VF = 0]
    after [Shr(x)]. *)
Theorem shift_pairs_lossy (random : Z) (c : Chip) (x : nat) :
  length (values (register c)) = 16%nat -> (x < 15)%nat ->
  (reg_nth c x = 5 ->
   exists c1 c2, execute random c (Shr x) = Some c1 /\
     reg_nth c1 x = 2 /\ reg_nth c1 15 = 1 /\
     execute random c1 (Shl x) = Some c2 /\
     reg_nth c2 x = 4 /\ reg_nth c2 15 = 0) /\
  (reg_nth c x = 150 ->
   exists c1 c2, execute random c (Shl x) = Some c1 /\
     reg_nth c1 x = 44 /\ reg_nth c1 15 = 1 /\
     execute random c1 (Shr x) = Some c2 /\
     reg_nth c2 x = 22 /\ reg_nth c2 15 = 0).
Proof.
  intros Hlen Hx. split; intros Hv.
  - set (c1 := set_reg (set_reg c 15 (Z.land 5 1)) x (Z.shiftr 5 1)).
    destruct (shift_step c c1 x _ _ Hlen Hx eq_refl) as [L1 [X1 F1]].
    set (c2 := set_reg (set_reg c1 15 (Z.shiftr (Z.land (Z.shiftr 5 1) 128) 7)) x
                       (Z.land (Z.shiftl (Z.shiftr 5 1) 1) 255)).
    destruct (shift_step c1 c2 x _ _ L1 Hx eq_refl) as [_ [X2 F2]].
    exists c1, c2.
    rewrite (execute_shr random c x Hlen), (execute_shl random c1 x L1) by lia.
    rewrite Hv, X1, F1, X2, F2. repeat split.
  - set (c1 := set_reg (set_reg c 15 (Z.shiftr (Z.land 150 128) 7)) x
                       (Z.land (Z.shiftl 150 1) 255)).
    destruct (shift_step c c1 x _ _ Hlen Hx eq_refl) as [L1 [X1 F1]].
    set (c2 := set_reg (set_reg c1 15 (Z.land (Z.land (Z.shiftl 150 1) 255) 1)) x
                       (Z.shiftr (Z.land (Z.shiftl 150 1) 255) 1)).
    destruct (shift_step c1 c2 x _ _ L1 Hx eq_refl) as [_ [X2 F2]].
    exists c1, c2.
    rewrite (execute_shl random c x Hlen), (execute_shr random c1 x L1) by lia.
    rewrite Hv, X1, F1, X2, F2. repeat split.
Qed.

Lemma shift_pairs_lossy_witness :
  (exists c1 c2, execute 0 (chip_with 5 0 0) (Shr 0) = Some c1 /\
     reg_nth c1 0 = 2 /\ reg_nth c1 15 = 1 /\
     execute 0 c1 (Shl 0) = Some c2 /\ reg_nth c2 0 = 4 /\ reg_nth c2 15 = 0) /\
  (exists c1 c2, execute 0 (chip_with 150 0 0) (Shl 0) = Some c1 /\
     reg_nth c1 0 = 44 /\ reg_nth c1 15 = 1 /\
     execute 0 c1 (Shr 0) = Some c2 /\ reg_nth c2 0 = 22 /\ reg_nth c2 15 = 0).
Proof.
  split.
  - apply (proj1 (shift_pairs_lossy 0 (chip_with 5 0 0) 0 eq_refl ltac:(lia))).
    reflexivity.
  - apply (proj2 (shift_pairs_lossy 0 (chip_with 150 0 0) 0 eq_refl ltac:(lia))).
    reflexivity.
Defined.

(** ** C7 and C8: AddByte, Or, And, Xor *)

(** [c'] is [c] with register [x] set to [v] and nothing else changed. *)
Definition writes_only (c c' : Chip) (x : nat) (v : Z) : Prop :=
  reg_nth c' x = v /\ (forall k, k <> x -> reg_nth c' k = reg_nth c k) /\
  frame_regs c c'.

Lemma set_reg_writes_only (c : Chip) (x : nat) (v : Z) :
  (x < length (values (register c)))%nat -> writes_only c (set_reg c x v) x v.
Proof.
  intros Hx. split; [| split].
  - apply reg_nth_set_eq, Hx.
  - intros k Hk. apply reg_nth_set_neq, Hk.
  - apply frame_regs_set.
Qed.

(** C7: [AddByte(x, kk)] sets [Vx = (Vx + kk) mod 256] and writes no
    other register (no flag in VF) and no other part of the state; from
    [Vx = 250], [AddByte(x, 10)] gives [Vx = 4] with VF unchanged
    ([x <> 0xF]). *)
Theorem execute_add_byte (random : Z) (c : Chip) (x : nat) (kk : Z) :
  chip_wf c -> (x < 16)%nat -> 0 <= kk < 256 ->
  exists c', execute random c (AddByte x kk) = Some c' /\
    writes_only c c' x ((reg_nth c x + kk) mod 256) /\
    (x <> 15%nat -> reg_nth c x = 250 -> kk = 10 ->
     reg_nth c' x = 4 /\ reg_nth c' 15 = reg_nth c 15).
Proof.
  intros Hwf Hx Hkk. destruct Hwf as [Hlen _].
  unfold execute. exec_regs. rewrite land_255_mod.
  eexists; split; [reflexivity |].
  pose proof (set_reg_writes_only c x ((reg_nth c x + kk) mod 256) ltac:(lia))
    as Hw.
  split; [exact Hw |].
  intros Hx15 H250 ->. destruct Hw as [H1 [H2 _]]. split.
  - rewrite H1, H250. reflexivity.
  - apply H2. congruence.
Qed.

Lemma execute_add_byte_witness :
  exists c', execute 0 (chip_with 250 0 7) (AddByte 0 10) = Some c' /\
    writes_only (chip_with 250 0 7) c' 0 ((reg_nth (chip_with 250 0 7) 0 + 10) mod 256) /\
    (0%nat <> 15%nat -> reg_nth (chip_with 250 0 7) 0 = 250 -> 10 = 10 ->
     reg_nth c' 0 = 4 /\ reg_nth c' 15 = reg_nth (chip_with 250 0 7) 15).
Proof.
  apply (execute_add_byte 0 (chip_with 250 0 7) 0 10); try lia.
  unfold chip_wf; simpl. repeat split; try lia. repeat constructor; lia.
Defined.

(** C8: for [x] in [0x0..0xE], [Or(x, y)], [And(x, y)] and [Xor(x, y)]
    set [Vx] to the bitwise OR, AND, XOR of the values of [Vx] and [Vy]
    before the instruction, leave VF as it was and change nothing else. *)
Theorem execute_bitwise (random : Z) (c : Chip) (x y : nat) :
  chip_wf c -> (x < 15)%nat -> (y < 16)%nat ->
  let vx := reg_nth c x in
  let vy := reg_nth c y in
  (exists c', execute random c (Or x y) = Some c' /\
     writes_only c c' x (Z.lor vx vy) /\ reg_nth c' 15 = reg_nth c 15) /\
  (exists c', execute random c (And x y) = Some c' /\
     writes_only c c' x (Z.land vx vy) /\ reg_nth c' 15 = reg_nth c 15) /\
  (exists c', execute random c (Xor x y) = Some c' /\
     writes_only c c' x (Z.lxor vx vy) /\ reg_nth c' 15 = reg_nth c 15).
Proof.
  intros Hwf Hx Hy vx vy. destruct Hwf as [Hlen _].
  split; [| split]; unfold execute; exec_regs;
    (eexists; split; [reflexivity |]);
    (split; [apply set_reg_writes_only; lia | apply reg_nth_set_neq; lia]).
Qed.

Lemma execute_bitwise_witness :
  let c := chip_with 10 15 9 in
  (exists c', execute 0 c (Or 1 0) = Some c' /\
     writes_only c c' 1 (Z.lor 15 10) /\ reg_nth c' 15 = reg_nth c 15) /\
  (exists c', execute 0 c (And 1 0) = Some c' /\
     writes_only c c' 1 (Z.land 15 10) /\ reg_nth c' 15 = reg_nth c 15) /\
  (exists c', execute 0 c (Xor 1 0) = Some c' /\
     writes_only c c' 1 (Z.lxor 15 10) /\ reg_nth c' 15 = reg_nth c 15).
Proof.
  apply (execute_bitwise 0 (chip_with 10 15 9) 1 0); try lia.
  unfold chip_wf; simpl. repeat split; try lia. repeat constructor; lia.
Defined.

(** ** C9: the conditional skips *)

(** The skips with the program counter at most [0xFFFD]: the comparison
    decides between [pc + 2] and no change at all. *)
Lemma execute_skips (random : Z) (c : Chip) (x y : nat) (kk : Z) :
  chip_wf c -> (x < 16)%nat -> (y < 16)%nat -> program_counter c <= 65533 ->
  let vx := reg_nth c x in
  let vy := reg_nth c y in
  let step (b : bool) := Some (if b then with_pc c (program_counter c + 2) else c) in
  execute random c (SeByte x kk) = step (vx =? kk) /\
  execute random c (SneByte x kk) = step (negb (vx =? kk)) /\
  execute random c (Se x y) = step (vx =? vy) /\
  execute random c (Sne x y) = step (negb (vx =? vy)).
Proof.
  intros Hwf Hx Hy Hpc vx vy step. subst vx vy step.
  destruct Hwf as [Hlen [_ Hpc0]].
  repeat split; unfold execute; exec_regs;
    destruct (_ =? _); simpl; try reflexivity;
    apply skip_some; lia.
Qed.

(** C9 (failing input): at program counter [0xFFFE], a [SeByte(0, 0)]
    whose comparison holds overflows the [u16] addition
    [self.program_counter += 2], which panics. *)
Lemma execute_skip_pc_overflow :
  execute 0 (with_pc zero_chip 0xFFFE) (SeByte 0 0) = None.
Proof. reflexivity. Qed.

Lemma mask_bound (z : Z) : 0 <= Z.land z 4095 <= 4095.
Proof.
  assert (E : Z.land z 4095 = z mod 4096).
  { change 4095 with (Z.ones 12). rewrite Z.land_ones by lia. reflexivity. }
  rewrite E. pose proof (Z.mod_pos_bound z 4096 ltac:(lia)). lia.
Qed.

(** ** C10: jumps, calls and returns *)

(** C10 (counterexample): [JpV0(0xFFFF)] with [V0 = 1]: the unchecked
    [u16] addition [self.register.get(0) as u16 + addr] overflows and
    panics instead of assigning [addr + V0]. *)
Lemma execute_jpv0_overflow :
  execute 0 (chip_with 1 0 0) (JpV0 0xFFFF) = None.
Proof. reflexivity. Qed.

(** C10 (amended): [Jp(addr)] assigns [addr] to the program counter
    unmasked; [JpV0(addr)] assigns [V0 + addr] unmasked when that [u16]
    sum does not overflow and panics when it does, which never happens for
    a decoded 12-bit [addr] ([V0 + addr <= 0x10FE]); [Call(addr)] pushes
    the program counter and assigns [addr & 0xFFF], and [Ret] assigns the
    popped entry [& 0xFFF], both at most [0xFFF]. *)
Theorem execute_jumps (random : Z) (c : Chip) (addr : Z) :
  execute random c (Jp addr) = Some (with_pc c addr) /\
  (chip_wf c ->
     execute random c (JpV0 addr) =
       if reg_nth c 0 + addr <? 65536
       then Some (with_pc c (reg_nth c 0 + addr)) else None) /\
  (chip_wf c -> 0 <= addr < 4096 ->
     execute random c (JpV0 addr) = Some (with_pc c (reg_nth c 0 + addr))) /\
  execute random c (Call addr) =
    Some (with_pc (with_stack c (stack c ++ [program_counter c]))
                  (Z.land addr 4095)) /\
  (forall st a, stack c = st ++ [a] ->
     execute random c Ret = Some (with_pc (with_stack c st) (Z.land a 4095)) /\
     0 <= Z.land a 4095 <= 4095) /\
  0 <= Z.land addr 4095 <= 4095.
Proof.
  assert (Hjp : chip_wf c ->
     execute random c (JpV0 addr) =
       if reg_nth c 0 + addr <? 65536
       then Some (with_pc c (reg_nth c 0 + addr)) else None).
  { intros [Hlen _]. unfold execute. exec_regs. unfold u16_add.
    destruct (_ <? _); reflexivity. }
  split; [reflexivity | split; [exact Hjp | split; [| split; [reflexivity | split]]]].
  - intros Hwf Haddr. rewrite (Hjp Hwf).
    pose proof (chip_wf_byte c 0 Hwf) as B.
    destruct (Z.ltb_spec (reg_nth c 0 + addr) 65536); [reflexivity | lia].
  - intros st a Hst. split; [| apply mask_bound].
    unfold execute. rewrite Hst, vec_pop_app. reflexivity.
  - apply mask_bound.
Qed.

(** Witness: from [V0 = 1], [JpV0(0xFFF)] leaves the program counter at
    [0x1000], above [0xFFF]; [JpV0(0xFFFF)] panics. *)
Lemma execute_jumps_witness :
  execute 0 (chip_with 1 0 0) (JpV0 0xFFF) = Some (with_pc (chip_with 1 0 0) 0x1000) /\
  execute 0 (chip_with 1 0 0) (JpV0 0xFFFF) = None.
Proof.
  assert (Hwf : chip_wf (chip_with 1 0 0)).
  { unfold chip_wf; simpl. repeat split; try lia. repeat constructor; lia. }
  destruct (execute_jumps 0 (chip_with 1 0 0) 0xFFF) as [_ [_ [H _]]].
  destruct (execute_jumps 0 (chip_with 1 0 0) 0xFFFF) as [_ [H' _]].
  split.
  - apply H; [exact Hwf | lia].
  - rewrite (H' Hwf). reflexivity.
Defined.

(** * Constructors and storage accessors *)

(** The copy loop of [Register::with_values] and [Memory::with_values]:
    [for i in 0..n { vals[i] = values[i]; }], here from index [i] on, for
    [n] steps; both indexings panic out of bounds. *)
Fixpoint copy_loop (n i : nat) (src vals : list Z) : option (list Z) :=
  match n with
  | O => Some vals
  | S n' =>
      let* v := nth_error src i in
      let* vals' := list_set vals i v in
      copy_loop n' (S i) src vals'
  end.

(** [Register::new] *)
Definition register_new : Register := mkRegister 0 0 0 (repeat 0 16).

(** [Register::with_values] *)
Definition register_with_values (vs : list Z) : option Register :=
  let* vals := copy_loop (Nat.min (length vs) 16) 0 vs (repeat 0 16) in
  Some (mkRegister 0 0 0 vals).

(** [Memory::new] *)
Definition memory_new : Memory := repeat 0 4096.

(** [Memory::with_values] *)
Definition memory_with_values (vs : list Z) : option Memory :=
  copy_loop (Nat.min (length vs) 4096) 0 vs (repeat 0 4096).

(** [AddressableStorage for Memory]: [self.values[key]], panicking out of
    bounds. *)
Definition memory_get (m : Memory) (key : nat) : option Z := nth_error m key.
Definition memory_set (m : Memory) (key : nat) (v : Z) : option Memory :=
  list_set m key v.

(** [Chip::new] *)
Definition chip_new : Chip := mkChip memory_new register_new 0 [].

(** [Chip::with_register_values] *)
Definition chip_with_register_values (vs : list Z) : option Chip :=
  let* r := register_with_values vs in
  Some (with_register chip_new r).

Lemma copy_loop_spec (n i : nat) (src vals : list Z) :
  (i + n <= length src)%nat -> (i + n <= length vals)%nat ->
  exists out, copy_loop n i src vals = Some out /\
    length out = length vals /\
    forall k, nth k out 0 =
      (if (i <=? k)%nat && (k <? i + n)%nat then nth k src 0 else nth k vals 0).
Proof.
  revert i vals. induction n as [| n IH]; intros i vals Hs Hv.
  - exists vals. split; [reflexivity | split; [reflexivity |]].
    intros k. destruct ((i <=? k)%nat && (k <? i + 0)%nat) eqn:E; [| reflexivity].
    apply andb_true_iff in E. destruct E as [E1 E2].
    apply Nat.leb_le in E1. apply Nat.ltb_lt in E2. lia.
  - simpl. rewrite (nth_error_nth' src 0) by lia.
    rewrite list_set_upd by lia.
    destruct (IH (S i) (upd vals i (nth i src 0))) as [out [Hrun [Hlen Hnth]]];
      [lia | rewrite upd_length; lia |].
    exists out. split; [exact Hrun | split; [rewrite Hlen, upd_length; reflexivity |]].
    intros k. rewrite Hnth.
    destruct (Nat.eq_dec k i) as [-> | Hki].
    + rewrite nth_upd_eq by lia.
      replace ((S i <=? i)%nat) with false by (symmetry; apply Nat.leb_gt; lia).
      replace ((i <=? i)%nat && (i <? i + S n)%nat) with true
        by (symmetry; apply andb_true_iff; split; [apply Nat.leb_le | apply Nat.ltb_lt]; lia).
      reflexivity.
    + rewrite nth_upd_neq by exact Hki.
      destruct (Nat.leb_spec (S i) k), (Nat.ltb_spec k (S i + n)),
               (Nat.leb_spec i k), (Nat.ltb_spec k (i + S n)); simpl;
        try reflexivity; lia.
Qed.

(** The copy of a slice into a zeroed array of [size] cells. *)
Lemma copy_into_zeros (size : nat) (vs : list Z) :
  exists out, copy_loop (Nat.min (length vs) size) 0 vs (repeat 0 size) = Some out /\
    length out = size /\ forall k, (k < size)%nat -> nth k out 0 = nth k vs 0.
Proof.
  destruct (copy_loop_spec (Nat.min (length vs) size) 0 vs (repeat 0 size))
    as [out [Hrun [Hlen Hnth]]]; [lia | rewrite repeat_length; lia |].
  exists out. split; [exact Hrun | split; [rewrite Hlen, repeat_length; reflexivity |]].
  intros k Hk. rewrite Hnth. simpl.
  destruct (Nat.ltb_spec k (Nat.min (length vs) size)).
  - reflexivity.
  - rewrite nth_repeat. symmetry. apply nth_overflow. lia.
Qed.

Lemma nth_error_upd_eq (l : list Z) (k : nat) (v : Z) :
  (k < length l)%nat -> nth_error (upd l k v) k = Some v.
Proof.
  revert k; induction l as [| h t IH]; intros [| k] Hk; simpl in *;
    try lia; auto with arith.
Qed.

Lemma nth_error_upd_neq (l : list Z) (k j : nat) (v : Z) :
  j <> k -> nth_error (upd l k v) j = nth_error l j.
Proof.
  revert k j; induction l as [| h t IH]; intros [| k] [| j] Hjk; simpl;
    auto; congruence.
Qed.

Lemma nth_error_overflow_none (l : list Z) (k : nat) :
  (length l <= k)%nat -> nth_error l k = None.
Proof. apply nth_error_None. Qed.

Lemma list_set_overflow (l : list Z) (k : nat) (v : Z) :
  (length l <= k)%nat -> list_set l k v = None.
Proof.
  revert k; induction l as [| h t IH]; intros [| k] Hk; simpl in *;
    try lia; try reflexivity.
  rewrite IH by lia. reflexivity.
Qed.

(** Extra: [Chip::with_register_values] on a byte slice builds a chip
    with sixteen [u8] registers, register [k] holding the slice's [k]-th
    byte (0 past its end, bytes past the sixteenth ignored), zero timers,
    index, program counter, an empty stack and zeroed memory. *)
Theorem chip_with_register_values_spec (vs : list Z) :
  Forall (fun v => 0 <= v < 256) vs ->
  exists c, chip_with_register_values vs = Some c /\ chip_wf c /\
    (forall k, (k < 16)%nat -> reg_nth c k = nth k vs 0) /\
    delay (register c) = 0 /\ i (register c) = 0 /\ sound (register c) = 0 /\
    program_counter c = 0 /\ stack c = [] /\ memory c = repeat 0 4096.
Proof.
  intros Hbytes.
  destruct (copy_into_zeros 16 vs) as [out [Hrun [Hlen Hnth]]].
  exists (with_register chip_new (mkRegister 0 0 0 out)).
  unfold chip_with_register_values, register_with_values. rewrite Hrun.
  split; [reflexivity |]. split; [| split; [exact Hnth | repeat split]].
  unfold chip_wf; simpl. split; [exact Hlen | split; [| lia]].
  apply Forall_forall. intros v Hin.
  destruct (In_nth out v 0 Hin) as [k [Hk <-]].
  rewrite Hnth by lia.
  destruct (Nat.lt_ge_cases k (length vs)).
  - rewrite Forall_forall in Hbytes. apply Hbytes, nth_In. assumption.
  - rewrite nth_overflow by assumption. lia.
Qed.

Lemma chip_with_register_values_spec_witness :
  exists c, chip_with_register_values [10; 15] = Some c /\ chip_wf c /\
    (forall k, (k < 16)%nat -> reg_nth c k = nth k [10; 15] 0) /\
    delay (register c) = 0 /\ i (register c) = 0 /\ sound (register c) = 0 /\
    program_counter c = 0 /\ stack c = [] /\ memory c = repeat 0 4096.
Proof.
  apply chip_with_register_values_spec. repeat constructor; lia.
Defined.

(** Extra: [Memory::with_values] never panics: it builds 4096 cells,
    cell [k] holding the slice's [k]-th byte (0 past its end); bytes past
    the 4096th are dropped. *)
Theorem memory_with_values_spec (vs : list Z) :
  exists m, memory_with_values vs = Some m /\ length m = 4096%nat /\
    forall k, (k < 4096)%nat -> nth k m 0 = nth k vs 0.
Proof. apply copy_into_zeros. Qed.

(** Extra: the [AddressableStorage] accessors of [Memory]: a [set] at an
    address below 4096 is read back by [get] there and changes no other
    cell; at an address of 4096 or more both [get] and [set] panic. *)
Theorem memory_set_get (m : Memory) (key k : nat) (v : Z) :
  length m = 4096%nat ->
  ((key < 4096)%nat ->
     exists m', memory_set m key v = Some m' /\ length m' = 4096%nat /\
       memory_get m' key = Some v /\
       (k <> key -> memory_get m' k = memory_get m k)) /\
  ((4096 <= key)%nat -> memory_set m key v = None /\ memory_get m key = None).
Proof.
  intros Hlen. split.
  - intros Hkey. exists (upd m key v). unfold memory_set, memory_get.
    rewrite list_set_upd by lia. split; [reflexivity |].
    rewrite upd_length. split; [exact Hlen |].
    split; [apply nth_error_upd_eq; lia |].
    intros Hk. apply nth_error_upd_neq, Hk.
  - intros Hkey. unfold memory_set, memory_get. split.
    + apply list_set_overflow. lia.
    + apply nth_error_overflow_none. lia.
Qed.

Lemma memory_set_get_witness :
  (exists m', memory_set memory_new 0x200 7 = Some m' /\ length m' = 4096%nat /\
     memory_get m' 0x200 = Some 7 /\
     (0x201%nat <> 0x200%nat -> memory_get m' 0x201 = memory_get memory_new 0x201)) /\
  (memory_set memory_new 5000 7 = None /\ memory_get memory_new 5000 = None).
Proof.
  split.
  - apply (proj1 (memory_set_get memory_new 0x200 0x201 7 eq_refl)). lia.
  - apply (proj2 (memory_set_get memory_new 5000 0 7 eq_refl)). lia.
Defined.

(** * The executor keeps the field types *)

(** Every field of the chip within its Rust type: [u8] registers and
    timers, [u16] index register, program counter and stack entries. *)
Definition chip_inv (c : Chip) : Prop :=
  chip_wf c /\ 0 <= delay (register c) < 256 /\ 0 <= i (register c) < 65536 /\
  0 <= sound (register c) < 256 /\ Forall (fun a => 0 <= a < 65536) (stack c).

Lemma byte_log2 (z : Z) : 0 <= z -> (z < 256 <-> Z.log2 z < 8).
Proof.
  intros Hz. destruct (Z.eq_dec z 0) as [-> | Hnz].
  - simpl. lia.
  - change 256 with (2 ^ 8). apply Z.log2_lt_pow2. lia.
Qed.

Lemma byte_lor (a b : Z) : 0 <= a < 256 -> 0 <= b < 256 -> 0 <= Z.lor a b < 256.
Proof.
  intros Ha Hb. assert (0 <= Z.lor a b) by (apply Z.lor_nonneg; lia).
  split; [assumption |]. apply byte_log2; [assumption |].
  rewrite Z.log2_lor by lia.
  apply Z.max_lub_lt; apply byte_log2; lia.
Qed.

Lemma byte_lxor (a b : Z) : 0 <= a < 256 -> 0 <= b < 256 -> 0 <= Z.lxor a b < 256.
Proof.
  intros Ha Hb. assert (0 <= Z.lxor a b) by (apply Z.lxor_nonneg; lia).
  split; [assumption |]. apply byte_log2; [assumption |].
  eapply Z.le_lt_trans; [apply Z.log2_lxor; lia |].
  apply Z.max_lub_lt; apply byte_log2; lia.
Qed.

Lemma byte_land (a b : Z) : 0 <= a < 256 -> 0 <= b -> 0 <= Z.land a b < 256.
Proof.
  intros Ha Hb. assert (0 <= Z.land a b) by (apply Z.land_nonneg; lia).
  split; [assumption |]. apply byte_log2; [assumption |].
  eapply Z.le_lt_trans; [apply Z.log2_land; lia |].
  eapply Z.le_lt_trans; [apply Z.le_min_l |]. apply byte_log2; lia.
Qed.

Lemma byte_land_255 (z : Z) : 0 <= Z.land z 255 < 256.
Proof. rewrite land_255_mod. apply Z.mod_pos_bound. lia. Qed.

Lemma byte_b2z (b : bool) : 0 <= b2z b < 256.
Proof. destruct b; simpl; lia. Qed.

Lemma byte_shr1 (v : Z) : 0 <= v < 256 -> 0 <= Z.shiftr v 1 < 256.
Proof.
  intros Hv. rewrite Z.shiftr_div_pow2 by lia. change (2 ^ 1) with 2.
  split; [apply Z.div_pos; lia | apply Z.div_lt_upper_bound; lia].
Qed.

Lemma byte_msb (v : Z) : 0 <= v < 256 -> 0 <= Z.shiftr (Z.land v 128) 7 < 256.
Proof.
  intros Hv. pose proof (byte_land v 128 Hv ltac:(lia)) as H.
  rewrite Z.shiftr_div_pow2 by lia. change (2 ^ 7) with 128.
  split; [apply Z.div_pos; lia | apply Z.div_lt_upper_bound; lia].
Qed.

Lemma Forall_upd (P : Z -> Prop) (l : list Z) (k : nat) (v : Z) :
  Forall P l -> P v -> Forall P (upd l k v).
Proof.
  revert k; induction l as [| h t IH]; intros [| k] Hl Hv; simpl;
    inversion Hl; subst; auto.
Qed.

Lemma Forall_removelast (P : Z -> Prop) (l : list Z) :
  Forall P l -> Forall P (removelast l).
Proof.
  intros Hl. destruct l as [| h t]; [constructor |].
  rewrite (app_removelast_last 0 (l := h :: t)) in Hl by discriminate.
  apply Forall_app in Hl. apply Hl.
Qed.

Lemma list_set_some (l l' : list Z) (k : nat) (v : Z) :
  list_set l k v = Some l' -> (k < length l)%nat /\ l' = upd l k v.
Proof.
  revert k l'; induction l as [| h t IH]; intros [| k] l' H; simpl in *;
    try discriminate.
  - injection H as <-. split; [lia | reflexivity].
  - destruct (list_set t k v) as [t' |] eqn:E; [| discriminate].
    injection H as <-. destruct (IH k t' E) as [Hk ->]. split; [lia | reflexivity].
Qed.

Lemma chip_set_some (c c' : Chip) (k : nat) (v : Z) :
  chip_set c k v = Some c' -> (k < length (values (register c)))%nat /\ c' = set_reg c k v.
Proof.
  unfold chip_set, reg_set. destruct (list_set _ k v) as [vs |] eqn:E; [| discriminate].
  intros H. injection H as <-. apply list_set_some in E. destruct E as [Hk ->].
  split; [exact Hk | reflexivity].
Qed.

Lemma set_reg_inv (c : Chip) (k : nat) (v : Z) :
  chip_inv c -> 0 <= v < 256 -> chip_inv (set_reg c k v).
Proof.
  intros [[Hlen [Hall Hpc]] [Hd [Hi [Hs Hst]]]] Hv.
  unfold chip_inv, chip_wf; simpl. rewrite upd_length.
  repeat split; try lia; try assumption. apply Forall_upd; assumption.
Qed.

Lemma reg_nth_byte_inv (c : Chip) (k : nat) : chip_inv c -> 0 <= reg_nth c k < 256.
Proof. intros [Hwf _]. apply chip_wf_byte, Hwf. Qed.

Ltac byte_goal :=
  first
    [ assumption
    | apply byte_land_255 | apply byte_b2z
    | apply reg_nth_byte_inv; assumption
    | apply byte_lor; apply reg_nth_byte_inv; assumption
    | apply byte_lxor; apply reg_nth_byte_inv; assumption
    | apply byte_land; [apply reg_nth_byte_inv; assumption | apply reg_nth_byte_inv; assumption]
    | apply byte_land; [assumption | lia]
    | apply byte_land; [apply reg_nth_byte_inv; assumption | lia]
    | apply byte_shr1; apply reg_nth_byte_inv; assumption
    | apply byte_msb; apply reg_nth_byte_inv; assumption
    | rewrite <- land_255_mod; apply byte_land_255
    | lia ].

(** Extra: whenever [execute] returns (it does not panic), on a chip whose
    fields are within their Rust types, a well-formed instruction and a
    [u8] random byte, the resulting chip again has sixteen [u8] registers,
    [u8] timers and [u16] index register, program counter and stack
    entries. *)
Theorem execute_preserves_inv (random : Z) (c c' : Chip) (ins : Instruction) :
  chip_inv c -> instr_wf ins -> 0 <= random < 256 ->
  execute random c ins = Some c' -> chip_inv c'.
Proof.
  intros Hinv Hins Hr.
  pose proof Hinv as [[Hlen [Hall Hpc]] [Hd [Hi [Hs Hst]]]].
  destruct ins; simpl in Hins; unfold execute;
    repeat match type of Hins with _ /\ _ => destruct Hins as [? Hins] end;
    exec_regs; intros Hex; try discriminate.
  all: try (injection Hex as <-; repeat apply set_reg_inv; byte_goal).
  all: try (destruct (_ =? _) in Hex; simpl in Hex;
            try (unfold skip, u16_add in Hex;
                 destruct (Z.ltb_spec (program_counter c + 2) 65536);
                 [| discriminate])).
  all: try (unfold u16_add in Hex;
            destruct (Z.ltb_spec (reg_nth c 0 + addr) 65536); [| discriminate]).
  all: try (match type of Hex with context [vec_pop] => idtac end;
            unfold vec_pop in Hex; destruct (stack c) as [| a st] eqn:Es).
  all: cbv beta iota zeta in Hex; injection Hex as <-; unfold chip_inv, chip_wf;
    cbn [with_pc with_stack with_register register program_counter stack
         memory values delay i sound];
    repeat split; try assumption; try lia;
    try (match goal with |- context [Z.land ?z 4095] =>
           pose proof (mask_bound z); lia end);
    try (apply Forall_removelast; assumption);
    try (apply Forall_app; split; [assumption | repeat constructor; lia]);
    try (apply reg_nth_byte_inv; assumption);
    try (rewrite Es; assumption);
    try (pose proof (reg_nth_byte_inv c 0 Hinv); lia);
    try (match goal with |- Forall _ (match ?st with [] => [] | _ :: _ => ?a :: removelast ?st end) =>
           change (match st with [] => [] | _ :: _ => a :: removelast st end)
             with (removelast (a :: st)) end;
         apply Forall_removelast; assumption).
Qed.

Lemma chip_new_inv : chip_inv chip_new.
Proof.
  unfold chip_inv, chip_wf; simpl. repeat split; try lia.
  - repeat (apply Forall_cons; [lia |]). apply Forall_nil.
  - apply Forall_nil.
Qed.

Lemma execute_preserves_inv_witness : chip_inv (set_reg chip_new 0 5).
Proof.
  apply (execute_preserves_inv 0 chip_new _ (LdByte 0 5)).
  - apply chip_new_inv.
  - simpl. lia.
  - lia.
  - reflexivity.
Defined.

(** * How instructions compose *)

Lemma land_le_r (a b : Z) : 0 <= a -> 0 <= b -> Z.land a b <= b.
Proof.
  intros Ha Hb. rewrite <- (Z2N.id a), <- (Z2N.id b) by assumption.
  rewrite <- N2Z.inj_land. apply N2Z.inj_le. apply N.land_le_r.
Qed.

(** A boolean fact checked on all 256 byte values. *)
Lemma byte_forall (P : Z -> bool) :
  forallb (fun n => P (Z.of_nat n)) (seq 0 256) = true ->
  forall v, 0 <= v < 256 -> P v = true.
Proof.
  intros Hall v Hv. rewrite forallb_forall in Hall.
  rewrite <- (Z2Nat.id v) by lia. apply Hall, in_seq. lia.
Qed.

Lemma upd_upd (l : list Z) (k : nat) (a b : Z) : upd (upd l k a) k b = upd l k b.
Proof.
  revert k; induction l as [| h t IH]; intros [| k]; simpl; auto.
  rewrite IH. reflexivity.
Qed.

Lemma mask_small (z : Z) : 0 <= z < 4096 -> Z.land z 4095 = z.
Proof.
  intros Hz. change 4095 with (Z.ones 12). rewrite Z.land_ones by lia.
  apply Z.mod_small. change (2 ^ 12) with 4096. lia.
Qed.

(** Extra: [Call(a)] pushes the program counter [P] and jumps to
    [a & 0xFFF]; a following [Ret] pops [P] back, restoring the stack and
    setting the program counter to [P & 0xFFF], so the pair restores the
    chip exactly when [P <= 0xFFF]. *)
Theorem call_then_ret (random a : Z) (c : Chip) :
  exists c1, execute random c (Call a) = Some c1 /\
    stack c1 = stack c ++ [program_counter c] /\
    program_counter c1 = Z.land a 4095 /\
    execute random c1 Ret = Some (with_pc c (Z.land (program_counter c) 4095)) /\
    (0 <= program_counter c < 4096 -> execute random c1 Ret = Some c).
Proof.
  eexists. split; [reflexivity |]. split; [reflexivity | split; [reflexivity |]].
  assert (Hret : execute random (with_pc (with_stack c (stack c ++ [program_counter c]))
                                  (Z.land a 4095)) Ret
                 = Some (with_pc c (Z.land (program_counter c) 4095))).
  { unfold execute. simpl. rewrite vec_pop_app. reflexivity. }
  split; [exact Hret |]. intros Hpc. rewrite Hret, mask_small by exact Hpc.
  destruct c; reflexivity.
Qed.

Lemma call_then_ret_witness :
  exists c1, execute 0 (with_pc zero_chip 0x234) (Call 0x500) = Some c1 /\
    stack c1 = [0x234] /\ program_counter c1 = 0x500 /\
    execute 0 c1 Ret = Some (with_pc zero_chip 0x234).
Proof.
  destruct (call_then_ret 0 0x500 (with_pc zero_chip 0x234))
    as [c1 [Hcall [Hst [Hpc [_ Hret]]]]].
  exists c1. split; [exact Hcall |]. split; [exact Hst |]. split; [exact Hpc |].
  apply Hret. simpl. lia.
Defined.

(** Extra: [Rnd(x, mask)] stores [random & mask] in [Vx], which is at most
    [mask], and changes nothing else. *)
Theorem execute_rnd (random : Z) (c : Chip) (x : nat) (mask : Z) :
  chip_wf c -> (x < 16)%nat -> 0 <= random < 256 -> 0 <= mask < 256 ->
  exists c', execute random c (Rnd x mask) = Some c' /\
    writes_only c c' x (Z.land random mask) /\ 0 <= reg_nth c' x <= mask.
Proof.
  intros [Hlen _] Hx Hr Hm. unfold execute. exec_regs.
  eexists; split; [reflexivity |].
  pose proof (set_reg_writes_only c x (Z.land random mask) ltac:(lia)) as Hw.
  split; [exact Hw |]. destruct Hw as [-> _].
  split; [apply Z.land_nonneg; lia | apply land_le_r; lia].
Qed.

Lemma execute_rnd_witness :
  exists c', execute 0xB7 zero_chip (Rnd 0 1) = Some c' /\
    writes_only zero_chip c' 0 (Z.land 0xB7 1) /\ 0 <= reg_nth c' 0 <= 1.
Proof.
  apply execute_rnd; try lia.
  unfold chip_wf; simpl. repeat split; try lia.
  repeat (apply Forall_cons; [lia |]). apply Forall_nil.
Defined.

(** Extra: [LdByte(x, a)] followed by [LdByte(x, b)] leaves the same chip
    as [LdByte(x, b)] alone: the second load overwrites the first. *)
Theorem ld_byte_overwrites (random : Z) (c : Chip) (x : nat) (a b : Z) :
  (x < length (values (register c)))%nat ->
  exists c1, execute random c (LdByte x a) = Some c1 /\
    execute random c1 (LdByte x b) = execute random c (LdByte x b).
Proof.
  intros Hx. unfold execute. rewrite !chip_set_upd by (try rewrite set_reg_length; lia).
  eexists; split; [reflexivity |].
  rewrite chip_set_upd by (rewrite set_reg_length; lia).
  unfold set_reg; simpl. rewrite upd_upd. reflexivity.
Qed.

Lemma ld_byte_overwrites_witness :
  exists c1, execute 0 zero_chip (LdByte 0 10) = Some c1 /\
    execute 0 c1 (LdByte 0 15) = execute 0 zero_chip (LdByte 0 15).
Proof. apply ld_byte_overwrites. simpl. lia. Defined.

(** Extra: for distinct registers [x], [y], neither of them VF, [Add(x, y)]
    followed by [Sub(x, y)] gives every register except VF back its value,
    also when the addition wraps around. *)
Theorem add_then_sub_restores (random : Z) (c : Chip) (x y : nat) :
  chip_wf c -> (x < 16)%nat -> (y < 16)%nat -> x <> y -> x <> 15%nat -> y <> 15%nat ->
  exists c1 c2, execute random c (Add x y) = Some c1 /\
    execute random c1 (Sub x y) = Some c2 /\
    forall k, k <> 15%nat -> reg_nth c2 k = reg_nth c k.
Proof.
  intros Hwf Hx Hy Hxy Hx15 Hy15.
  pose proof (chip_wf_byte c x Hwf) as Bx. pose proof (chip_wf_byte c y Hwf) as By.
  destruct Hwf as [Hlen _].
  set (vx := reg_nth c x). set (vy := reg_nth c y).
  set (c1 := set_reg (set_reg c 15 (b2z (vx + vy >? 255))) x (Z.land (vx + vy) 255)).
  destruct (flag_then_write c x (b2z (vx + vy >? 255)) (Z.land (vx + vy) 255) Hlen Hx)
    as [X1 [_ [O1 _]]].
  fold c1 in X1, O1.
  assert (L1 : length (values (register c1)) = 16%nat)
    by (unfold c1; rewrite !set_reg_length; exact Hlen).
  assert (Y1 : reg_nth c1 y = vy) by (apply O1; congruence).
  set (c2 := set_reg (set_reg c1 15 (b2z (reg_nth c1 x >? reg_nth c1 y))) x
                     (Z.land (reg_nth c1 x - reg_nth c1 y) 255)).
  destruct (flag_then_write c1 x (b2z (reg_nth c1 x >? reg_nth c1 y))
              (Z.land (reg_nth c1 x - reg_nth c1 y) 255) L1 Hx)
    as [X2 [_ [O2 _]]].
  fold c2 in X2, O2.
  exists c1, c2. split; [| split].
  - unfold execute. exec_regs. reflexivity.
  - unfold execute.
    rewrite (reg_get_nth c1 x), (reg_get_nth c1 y) by lia.
    rewrite (chip_set_upd c1 15) by lia.
    rewrite chip_set_upd by (rewrite set_reg_length; lia). reflexivity.
  - intros k Hk. destruct (Nat.eq_dec k x) as [-> | Hkx].
    + rewrite X2, X1, Y1, !land_255_mod, Zminus_mod_idemp_l.
      replace (vx + vy - vy) with vx by lia. apply Z.mod_small. exact Bx.
    + rewrite O2, O1 by assumption. reflexivity.
Qed.

Lemma add_then_sub_restores_witness :
  exists c1 c2, execute 0 (chip_with 255 100 0) (Add 0 1) = Some c1 /\
    execute 0 c1 (Sub 0 1) = Some c2 /\
    forall k, k <> 15%nat -> reg_nth c2 k = reg_nth (chip_with 255 100 0) k.
Proof.
  apply add_then_sub_restores; try lia.
  unfold chip_wf; simpl. repeat split; try lia.
  repeat (apply Forall_cons; [lia |]). apply Forall_nil.
Defined.

Lemma shr_bits (v : Z) : 0 <= v < 256 ->
  Z.land v 1 = v mod 2 /\ Z.shiftr v 1 = v / 2.
Proof.
  intros Hv. split.
  - change (Z.land v 1) with (Z.land v (Z.ones 1)). rewrite Z.land_ones by lia. reflexivity.
  - rewrite Z.shiftr_div_pow2 by lia. reflexivity.
Qed.

Lemma shl_bits (v : Z) : 0 <= v < 256 ->
  Z.shiftr (Z.land v 128) 7 = v / 128 /\ Z.land (Z.shiftl v 1) 255 = (2 * v) mod 256.
Proof.
  intros Hv. split.
  - apply Z.eqb_eq. revert v Hv.
    apply (byte_forall (fun v => Z.shiftr (Z.land v 128) 7 =? v / 128)).
    vm_compute. reflexivity.
  - rewrite Z.shiftl_mul_pow2, land_255_mod by lia. f_equal. lia.
Qed.

(** Extra: on a register [x <> 0xF] holding [v], [Shr(x)] leaves
    [Vx = v / 2] and [VF = v mod 2] (the bit shifted out), and [Shl(x)]
    leaves [Vx = 2 v mod 256] and [VF = v / 128] (the top bit); no other
    register changes. *)
Theorem execute_shifts (random : Z) (c : Chip) (x : nat) :
  chip_wf c -> (x < 15)%nat ->
  let v := reg_nth c x in
  (exists c', execute random c (Shr x) = Some c' /\
     reg_nth c' x = v / 2 /\ reg_nth c' 15 = v mod 2 /\
     forall k, k <> x -> k <> 15%nat -> reg_nth c' k = reg_nth c k) /\
  (exists c', execute random c (Shl x) = Some c' /\
     reg_nth c' x = (2 * v) mod 256 /\ reg_nth c' 15 = v / 128 /\
     forall k, k <> x -> k <> 15%nat -> reg_nth c' k = reg_nth c k).
Proof.
  intros Hwf Hx v.
  pose proof (chip_wf_byte c x Hwf) as Bv. destruct Hwf as [Hlen _].
  destruct (shr_bits v Bv) as [R1 R2]. destruct (shl_bits v Bv) as [L1 L2].
  split.
  - rewrite (execute_shr random c x Hlen) by lia. change (reg_nth c x) with v. eexists; split; [reflexivity |].
    destruct (flag_then_write c x (Z.land v 1) (Z.shiftr v 1) Hlen ltac:(lia))
      as [X [F [O _]]].
    destruct (Nat.eqb_spec x 15); [lia |].
    split; [rewrite X; exact R2 | split; [rewrite F; exact R1 | exact O]].
  - rewrite (execute_shl random c x Hlen) by lia. change (reg_nth c x) with v. eexists; split; [reflexivity |].
    destruct (flag_then_write c x (Z.shiftr (Z.land v 128) 7)
                (Z.land (Z.shiftl v 1) 255) Hlen ltac:(lia)) as [X [F [O _]]].
    destruct (Nat.eqb_spec x 15); [lia |].
    split; [rewrite X; exact L2 | split; [rewrite F; exact L1 | exact O]].
Qed.

Lemma execute_shifts_witness :
  let c := chip_with 0x81 0 0 in
  let v := reg_nth c 0 in
  (exists c', execute 0 c (Shr 0) = Some c' /\
     reg_nth c' 0 = v / 2 /\ reg_nth c' 15 = v mod 2 /\
     forall k, k <> 0%nat -> k <> 15%nat -> reg_nth c' k = reg_nth c k) /\
  (exists c', execute 0 c (Shl 0) = Some c' /\
     reg_nth c' 0 = (2 * v) mod 256 /\ reg_nth c' 15 = v / 128 /\
     forall k, k <> 0%nat -> k <> 15%nat -> reg_nth c' k = reg_nth c k).
Proof.
  apply execute_shifts; [| lia].
  unfold chip_wf; simpl. repeat split; try lia.
  repeat (apply Forall_cons; [lia |]). apply Forall_nil.
Defined.

(** Extra: on a register [x <> 0xF] holding [v], [Shl(x)] then [Shr(x)]
    gives [x] back [v] when [v < 128] (no bit is shifted out at the top),
    and [Shr(x)] then [Shl(x)] gives it back [v] when [v] is even (no bit
    is shifted out at the bottom). *)
Theorem shift_round_trips (random : Z) (c : Chip) (x : nat) :
  chip_wf c -> (x < 15)%nat ->
  (reg_nth c x < 128 ->
   exists c1 c2, execute random c (Shl x) = Some c1 /\
     execute random c1 (Shr x) = Some c2 /\ reg_nth c2 x = reg_nth c x) /\
  (reg_nth c x mod 2 = 0 ->
   exists c1 c2, execute random c (Shr x) = Some c1 /\
     execute random c1 (Shl x) = Some c2 /\ reg_nth c2 x = reg_nth c x).
Proof.
  intros Hwf Hx.
  pose proof (chip_wf_byte c x Hwf) as Bv. destruct Hwf as [Hlen _].
  destruct (shr_bits _ Bv) as [_ R2]. destruct (shl_bits _ Bv) as [_ L2].
  split; intros Hv.
  - set (c1 := set_reg (set_reg c 15 (Z.shiftr (Z.land (reg_nth c x) 128) 7)) x
                 (Z.land (Z.shiftl (reg_nth c x) 1) 255)).
    assert (L1 : length (values (register c1)) = 16%nat)
      by (unfold c1; rewrite !set_reg_length; exact Hlen).
    destruct (flag_then_write c (x) (Z.shiftr (Z.land (reg_nth c x) 128) 7)
                (Z.land (Z.shiftl (reg_nth c x) 1) 255) Hlen ltac:(lia))
      as [X1 _]. fold c1 in X1.
    exists c1, (set_reg (set_reg c1 15 (Z.land (reg_nth c1 x) 1)) x
                  (Z.shiftr (reg_nth c1 x) 1)).
    split; [apply execute_shl; [exact Hlen | lia] |].
    split; [apply execute_shr; [exact L1 | lia] |].
    destruct (flag_then_write c1 x (Z.land (reg_nth c1 x) 1)
                (Z.shiftr (reg_nth c1 x) 1) L1 ltac:(lia)) as [X2 _].
    rewrite X2, X1, L2, Z.mod_small by lia.
    rewrite Z.shiftr_div_pow2 by lia. change (2 ^ 1) with 2.
    rewrite Z.mul_comm, Z.div_mul by lia. reflexivity.
  - set (c1 := set_reg (set_reg c 15 (Z.land (reg_nth c x) 1)) x
                 (Z.shiftr (reg_nth c x) 1)).
    assert (L1 : length (values (register c1)) = 16%nat)
      by (unfold c1; rewrite !set_reg_length; exact Hlen).
    destruct (flag_then_write c x (Z.land (reg_nth c x) 1)
                (Z.shiftr (reg_nth c x) 1) Hlen ltac:(lia)) as [X1 _].
    fold c1 in X1.
    exists c1, (set_reg (set_reg c1 15 (Z.shiftr (Z.land (reg_nth c1 x) 128) 7)) x
                  (Z.land (Z.shiftl (reg_nth c1 x) 1) 255)).
    split; [apply execute_shr; [exact Hlen | lia] |].
    split; [apply execute_shl; [exact L1 | lia] |].
    destruct (flag_then_write c1 x (Z.shiftr (Z.land (reg_nth c1 x) 128) 7)
                (Z.land (Z.shiftl (reg_nth c1 x) 1) 255) L1 ltac:(lia)) as [X2 _].
    rewrite X2, X1, R2.
    rewrite Z.shiftl_mul_pow2, land_255_mod by lia. change (2 ^ 1) with 2.
    pose proof (Z.div_mod (reg_nth c x) 2 ltac:(lia)) as D.
    rewrite Z.mod_small by lia. lia.
Qed.

Lemma shift_round_trips_witness :
  (exists c1 c2, execute 0 (chip_with 0x40 0 0) (Shl 0) = Some c1 /\
     execute 0 c1 (Shr 0) = Some c2 /\ reg_nth c2 0 = 0x40) /\
  (exists c1 c2, execute 0 (chip_with 0x40 0 0) (Shr 0) = Some c1 /\
     execute 0 c1 (Shl 0) = Some c2 /\ reg_nth c2 0 = 0x40).
Proof.
  assert (Hwf : chip_wf (chip_with 0x40 0 0)).
  { unfold chip_wf; simpl. repeat split; try lia.
    repeat (apply Forall_cons; [lia |]). apply Forall_nil. }
  destruct (shift_round_trips 0 (chip_with 0x40 0 0) 0 Hwf ltac:(lia)) as [A B].
  split; [apply A | apply B]; vm_compute; reflexivity.
Defined.

(** Extra: [LdDelayVx(x)] then [LdVxDelay(y)] copies [Vx] into both the
    delay timer and [Vy]; the other registers, [I], the sound timer, the
    memory, the program counter and the stack are left as they were. *)
Theorem delay_round_trip (random : Z) (c : Chip) (x y : nat) :
  (x < length (values (register c)))%nat -> (y < length (values (register c)))%nat ->
  exists c1 c2, execute random c (LdDelayVx x) = Some c1 /\
    execute random c1 (LdVxDelay y) = Some c2 /\
    delay (register c2) = reg_nth c x /\
    reg_nth c2 y = reg_nth c x /\
    (forall k, k <> y -> reg_nth c2 k = reg_nth c k) /\
    i (register c2) = i (register c) /\ sound (register c2) = sound (register c) /\
    memory c2 = memory c /\ program_counter c2 = program_counter c /\
    stack c2 = stack c.
Proof.
  intros Hx Hy.
  set (r := register c).
  set (c1 := with_register c (mkRegister (reg_nth c x) (i r) (sound r) (values r))).
  assert (Hy1 : (y < length (values (register c1)))%nat) by exact Hy.
  exists c1, (set_reg c1 y (reg_nth c x)).
  split; [unfold execute; rewrite reg_get_nth by exact Hx; reflexivity |].
  split; [unfold execute; rewrite chip_set_upd by exact Hy1; reflexivity |].
  destruct (set_reg_writes_only c1 y (reg_nth c x) Hy1) as [W [O _]].
  split; [reflexivity |]. split; [exact W |].
  split; [intros k Hk; rewrite O by exact Hk; reflexivity |].
  repeat split.
Qed.

Lemma delay_round_trip_witness :
  exists c1 c2, execute 0 (chip_with 42 0 0) (LdDelayVx 0) = Some c1 /\
    execute 0 c1 (LdVxDelay 1) = Some c2 /\
    delay (register c2) = 42 /\ reg_nth c2 1 = 42 /\
    (forall k, k <> 1%nat -> reg_nth c2 k = reg_nth (chip_with 42 0 0) k) /\
    i (register c2) = 0 /\ sound (register c2) = 0 /\
    memory c2 = repeat 0 4096 /\ program_counter c2 = 0 /\ stack c2 = [].
Proof. apply (delay_round_trip 0 (chip_with 42 0 0) 0 1); simpl; lia. Defined.

Lemma execute_skips_witness :
  let c := with_pc (chip_with 7 7 0) 0x200 in
  execute 0 c (SeByte 0 7) = Some (with_pc c 0x202) /\
  execute 0 c (SneByte 0 7) = Some c /\
  execute 0 c (Se 0 1) = Some (with_pc c 0x202) /\
  execute 0 c (Sne 0 1) = Some c.
Proof.
  intros c.
  assert (Hwf : chip_wf c).
  { unfold chip_wf; simpl. repeat split; try lia.
    repeat (apply Forall_cons; [lia |]). apply Forall_nil. }
  exact (execute_skips 0 c 0 1 7 Hwf ltac:(lia) ltac:(lia) ltac:(simpl; lia)).
Defined.

(** * The chip of [src/src/main.rs] *)

(** [main.rs] carries its own [Register] (only [values: [u8; 16]]), its
    own [Chip] (only the register) and its own [Chip::execute] over the
    instructions of [MainRs]; [println!] and [bitwise!] only print. *)
Module MainRsChip.

(** [Register { values: [u8; 16] }] *)
Record Register : Type := mkRegister { values : list Z }.

(** [Register::new] *)
Definition register_new : Register := mkRegister (repeat 0 16).

(** [Register::with_values]: the same copy loop as the library's. *)
Definition register_with_values (vs : list Z) : option Register :=
  let* vals := copy_loop (Nat.min (length vs) 16) 0 vs (repeat 0 16) in
  Some (mkRegister vals).

(** [Register::set] and [Register::get]: array indexing, which panics out
    of bounds. *)
Definition set (r : Register) (key : nat) (value : Z) : option Register :=
  let* vs := list_set (values r) key value in Some (mkRegister vs).
Definition get (r : Register) (key : nat) : option Z := nth_error (values r) key.

(** [Chip { register }] *)
Record Chip : Type := mkChip { register : Register }.

Definition chip_set (c : Chip) (key : nat) (value : Z) : option Chip :=
  let* r := set (register c) key value in Some (mkChip r).

(** [Chip::execute]; [random] is the byte drawn by [thread_rng] in the
    [Rnd] arm. [value_x as u16 + value as u16] and the [i16] differences
    cannot overflow on bytes; [value_x << 1] on a [u8] drops the top bit. *)
Definition execute (random : Z) (c : Chip) (ins : MainRs.Instruction) : option Chip :=
  let reg := register c in
  match ins with
  | MainRs.LdByte vx value => chip_set c vx value
  | MainRs.AddByte vx value =>
      let* value_x := get reg vx in
      chip_set c vx (Z.land (value_x + value) 255)
  | MainRs.Ld vx vy =>
      let* value := get reg vy in
      chip_set c vx value
  | MainRs.Or vx vy =>
      let* value_x := get reg vx in
      let* value_y := get reg vy in
      chip_set c vx (Z.lor value_x value_y)
  | MainRs.And vx vy =>
      let* value_x := get reg vx in
      let* value_y := get reg vy in
      chip_set c vx (Z.land value_x value_y)
  | MainRs.Xor vx vy =>
      let* value_x := get reg vx in
      let* value_y := get reg vy in
      chip_set c vx (Z.lxor value_x value_y)
  | MainRs.Add vx vy =>
      let* value_x := get reg vx in
      let* value_y := get reg vy in
      let sum := value_x + value_y in
      let overflow := b2z (sum >? 255) in
      let* c1 := chip_set c 15 overflow in
      chip_set c1 vx (Z.land sum 255)
  | MainRs.Sub vx vy =>
      let* value_x := get reg vx in
      let* value_y := get reg vy in
      let no_borrow := b2z (value_x >? value_y) in
      let* c1 := chip_set c 15 no_borrow in
      chip_set c1 vx (Z.land (value_x - value_y) 255)
  | MainRs.Shr vx =>
      let* value_x := get reg vx in
      let least_sig_bit := Z.land value_x 1 in
      let* c1 := chip_set c 15 least_sig_bit in
      chip_set c1 vx (Z.shiftr value_x 1)
  | MainRs.Subn vx vy =>
      let* value_x := get reg vx in
      let* value_y := get reg vy in
      let no_borrow := b2z (value_y >? value_x) in
      let* c1 := chip_set c 15 no_borrow in
      chip_set c1 vx (Z.land (value_y - value_x) 255)
  | MainRs.Shl vx =>
      let* value_x := get reg vx in
      let most_sig_bit := Z.shiftr (Z.land value_x 128) 7 in
      let* c1 := chip_set c 15 most_sig_bit in
      chip_set c1 vx (Z.land (Z.shiftl value_x 1) 255)
  | MainRs.Rnd vx mask => chip_set c vx (Z.land random mask)
  | MainRs.Unknown => Some c
  end.

(** [Chip::new] *)
Definition chip_new : Chip := mkChip register_new.

(** [Chip::with_register_values] *)
Definition chip_with_register_values (vs : list Z) : option Chip :=
  let* r := register_with_values vs in Some (mkChip r).

(** [for ins in &instructions { chip.execute(ins); }], the [n]-th
    instruction executed with [draw n] as its random byte. *)
Fixpoint run (draw : nat -> Z) (n : nat) (c : Chip) (prog : list MainRs.Instruction)
  : option Chip :=
  match prog with
  | [] => Some c
  | ins :: rest =>
      let* c' := execute (draw n) c ins in
      run draw (S n) c' rest
  end.

(** The instruction array of [main]. *)
Definition main_instructions : list MainRs.Instruction :=
  [MainRs.LdByte 0 100; MainRs.Ld 1 0; MainRs.Shl 0; MainRs.Shr 1;
   MainRs.Sub 0 1; MainRs.Add 1 0; MainRs.LdByte 2 57; MainRs.Xor 1 2;
   MainRs.Ld 3 1; MainRs.And 3 2; MainRs.Rnd 5 255; MainRs.Rnd 5 10].

(** [main] *)
Definition main (draw : nat -> Z) : option Chip :=
  run draw 0 chip_new main_instructions.

(** Register indices of an instruction within the sixteen registers. *)
Definition ins_wf (ins : MainRs.Instruction) : Prop :=
  match ins with
  | MainRs.LdByte vx _ | MainRs.AddByte vx _ | MainRs.Shr vx | MainRs.Shl vx
  | MainRs.Rnd vx _ => (vx < 16)%nat
  | MainRs.Ld vx vy | MainRs.Or vx vy | MainRs.And vx vy | MainRs.Xor vx vy
  | MainRs.Add vx vy | MainRs.Sub vx vy | MainRs.Subn vx vy =>
      (vx < 16)%nat /\ (vy < 16)%nat
  | MainRs.Unknown => True
  end.

Lemma main_get_nth (c : Chip) (k : nat) :
  (k < length (values (register c)))%nat ->
  get (register c) k = Some (nth k (values (register c)) 0).
Proof. intros Hk. apply nth_error_nth'. exact Hk. Qed.

Lemma main_chip_set_upd (c : Chip) (k : nat) (v : Z) :
  (k < length (values (register c)))%nat ->
  chip_set c k v = Some (mkChip (mkRegister (upd (values (register c)) k v))).
Proof.
  intros Hk. unfold chip_set, set. rewrite list_set_upd by exact Hk. reflexivity.
Qed.

Lemma execute_some (random : Z) (c : Chip) (ins : MainRs.Instruction) :
  length (values (register c)) = 16%nat -> ins_wf ins ->
  exists c', execute random c ins = Some c' /\ length (values (register c')) = 16%nat.
Proof.
  intros Hlen Hwf.
  destruct ins; simpl in Hwf; unfold execute;
    repeat first
      [ rewrite main_get_nth by lia
      | rewrite main_chip_set_upd by (simpl; rewrite ?upd_length; lia) ];
    eexists; (split; [reflexivity | simpl; rewrite ?upd_length; exact Hlen]).
Qed.

Lemma parse_wf (op : Z) : 0 <= op < 65536 -> ins_wf (MainRs.parse op).
Proof.
  intros Hop. unfold MainRs.parse. rewrite nibbles_spec by lia.
  destruct (nibble_bounds op Hop) as [Ha Hd].
  pose proof (Z.mod_pos_bound (op / 256) 16 ltac:(lia)) as Hx.
  pose proof (Z.mod_pos_bound (op / 16) 16 ltac:(lia)) as Hy.
  remember (op / 4096) as a eqn:Ea. remember (op mod 16) as d eqn:Ed.
  remember (op / 256 mod 16) as x eqn:Ex. remember (op / 16 mod 16) as y eqn:Ey.
  clear Ea Ed Ex Ey.
  case_nibble a; cbn; try exact I; try lia.
  case_nibble d; cbn; try exact I; lia.
Qed.

Lemma run_some (draw : nat -> Z) (prog : list MainRs.Instruction) :
  Forall ins_wf prog ->
  forall n c, length (values (register c)) = 16%nat ->
  exists c', run draw n c prog = Some c' /\ length (values (register c')) = 16%nat.
Proof.
  induction 1 as [| ins rest Hins _ IH]; intros n c Hlen.
  - exists c. split; [reflexivity | exact Hlen].
  - simpl. destruct (execute_some (draw n) c ins Hlen Hins) as [c1 [-> Hlen1]].
    apply IH. exact Hlen1.
Qed.

End MainRsChip.

(** Extra: unlike the library's decoder, [main.rs] never panics on a
    decoded program: from any chip of its sixteen registers, executing
    the decoding of any list of 16-bit opcodes runs to completion, whatever
    the random bytes ([Unknown] is a no-op and every decoded register index
    is a nibble). *)
Theorem main_rs_decoded_programs_complete (draw : nat -> Z) (ops : list Z)
    (c : MainRsChip.Chip) :
  length (MainRsChip.values (MainRsChip.register c)) = 16%nat ->
  Forall (fun op => 0 <= op < 65536) ops ->
  exists c', MainRsChip.run draw 0 c (map MainRs.parse ops) = Some c'.
Proof.
  intros Hlen Hops.
  assert (Hwf : Forall MainRsChip.ins_wf (map MainRs.parse ops)).
  { apply Forall_map. eapply Forall_impl; [| exact Hops].
    intros op Hop. apply MainRsChip.parse_wf, Hop. }
  destruct (MainRsChip.run_some draw _ Hwf 0 c Hlen) as [c' [Hrun _]].
  exists c'. exact Hrun.
Qed.

Lemma main_rs_decoded_programs_complete_witness :
  exists c', MainRsChip.run (fun _ => 0) 0 MainRsChip.chip_new
               (map MainRs.parse [0x6A3C; 0x7005; 0x8AB4; 0xFFFF; 0x0000]) = Some c'.
Proof.
  apply main_rs_decoded_programs_complete; [reflexivity |].
  repeat (apply Forall_cons; [lia |]). apply Forall_nil.
Defined.

(** Extra: [main] runs to completion for any random bytes and ends with
    [V0 = 150], [V1 = 241], [V2 = 57], [V3 = 49], [VF = 0] and
    [V5 = r AND 10 <= 10], where [r] is the byte drawn by the last [Rnd];
    every other register is 0. *)
Theorem main_result (draw : nat -> Z) :
  (forall n, 0 <= draw n < 256) ->
  exists c, MainRsChip.main draw = Some c /\
    MainRsChip.values (MainRsChip.register c) =
      [150; 241; 57; 49; 0; Z.land (draw 11%nat) 10] ++ repeat 0 9 ++ [0] /\
    0 <= Z.land (draw 11%nat) 10 <= 10.
Proof.
  intros Hdraw. eexists. split; [reflexivity |]. split; [reflexivity |].
  specialize (Hdraw 11%nat). split.
  - apply Z.land_nonneg. lia.
  - apply land_le_r; lia.
Qed.

Lemma main_result_witness :
  exists c, MainRsChip.main (fun _ => 0xAB) = Some c /\
    MainRsChip.values (MainRsChip.register c) =
      [150; 241; 57; 49; 0; 10] ++ repeat 0 9 ++ [0] /\
    0 <= 10 <= 10.
Proof. apply (main_result (fun _ => 0xAB)). intros _. lia. Defined.
